(** * Fixture generators of the score format: synthesis and duplication

    A shallow embedding of the two fixture scripts:

    - [backend/tests/fixtures/generate_100_measures.py] loads a score
      document, appends to every voice a copy of its notes shifted in time,
      and writes the document back;
    - [generate_dense_fixture.py] builds a two-staff piano score with a
      periodic pattern of eighth notes.

    The score document is the JSON tree
    score > instruments > staves > voices > interval_events.  The objects
    that are dictionaries with a fixed set of keys are records here.  The
    four keys that the duplication script tests with [in] before it uses
    them are optional fields.  The one-field wrapper objects
    [{"value": n}] are the only objects the duplication script assigns
    into (line 25), so a document in memory keeps them in a store and holds
    their addresses; a serialized document holds their contents.  Every
    other object is never assigned into after it is built and is held by
    value.

    The documents of the model are those whose keys, where present, hold
    values of the types of the schema: lists under the four container keys,
    integers in the [{"value": n}] objects, and every note with its four
    keys.  Python integers are unbounded, hence [Z]. *)

From Stdlib Require Import DecimalString DecimalN.
From stdpp Require Import list strings numbers.

Open Scope Z_scope.

(** ** The score document *)

(** A structural event is a one-key object whose key is the variant. *)
Inductive StructuralEvent : Type :=
  | Tempo (tick : Z) (bpm : Z)
  | TimeSignature (tick : Z) (numerator denominator : Z)
  | Clef (tick : Z) (clef : string)
  | KeySignature (tick : Z) (fifths : Z).

(** [T] is the representation of a [{"value": n}] object: [Z], its content,
    in a serialized document; [loc], its address, in memory. *)
Record IntervalEvent (T : Type) : Type := mkIntervalEvent {
  note_id : string;
  start_tick : T;
  duration_ticks : Z;
  pitch : T
}.
Arguments mkIntervalEvent {T} _ _ _ _.
Arguments note_id {T} _.
Arguments start_tick {T} _.
Arguments duration_ticks {T} _.
Arguments pitch {T} _.

Record Voice (T : Type) : Type := mkVoice {
  voice_id : string;
  interval_events : option (list (IntervalEvent T))
}.
Arguments mkVoice {T} _ _.
Arguments voice_id {T} _.
Arguments interval_events {T} _.

Record Staff (T : Type) : Type := mkStaff {
  staff_id : string;
  staff_structural_events : list StructuralEvent;
  voices : option (list (Voice T))
}.
Arguments mkStaff {T} _ _ _.
Arguments staff_id {T} _.
Arguments staff_structural_events {T} _.
Arguments voices {T} _.

Record Instrument (T : Type) : Type := mkInstrument {
  instrument_id : string;
  name : string;
  instrument_type : string;
  staves : option (list (Staff T))
}.
Arguments mkInstrument {T} _ _ _ _.
Arguments instrument_id {T} _.
Arguments name {T} _.
Arguments instrument_type {T} _.
Arguments staves {T} _.

Record Score (T : Type) : Type := mkScore {
  score_id : string;
  global_structural_events : list StructuralEvent;
  instruments : option (list (Instrument T))
}.
Arguments mkScore {T} _ _ _.
Arguments score_id {T} _.
Arguments global_structural_events {T} _.
Arguments instruments {T} _.

(** The notes of a voice, none when the key is absent. *)
Definition voice_events {T} (voice : Voice T) : list (IntervalEvent T) :=
  default [] (interval_events voice).

(** ** Python exceptions and the store *)

Inductive exn : Type :=
  | ValueError          (* max() of an empty sequence *)
  | KeyError (key : string)
  | IndexError.

Inductive result (A : Type) : Type :=
  | Ok (a : A)
  | Raise (e : exn).
Arguments Ok {A} _.
Arguments Raise {A} _.

Abbreviation loc := nat (only parsing).

(** The store of [{"value": n}] objects: the object at address [l] is the
    [l]-th entry.  A new object takes the next free address. *)
Abbreviation heap := (list Z) (only parsing).

(** A computation reads and writes the store and may raise. *)
Definition M (A : Type) : Type := heap -> result (A * heap).

Definition ret {A} (a : A) : M A := fun h => Ok (a, h).

Definition bind {A B} (m : M A) (k : A -> M B) : M B :=
  fun h => match m h with
           | Ok (a, h') => k a h'
           | Raise e => Raise e
           end.

Definition lift {A} (r : result A) : M A :=
  fun h => match r with Ok a => Ok (a, h) | Raise e => Raise e end.

Notation "x <- c ;; k" := (bind c (fun x => k))
  (at level 100, c at next level, right associativity).
Notation "c ;;; k" := (bind c (fun _ => k))
  (at level 100, right associativity).

(** [obj['value']] *)
Definition get_value (l : loc) : M Z := fun h => Ok (h !!! l, h).

(** [obj['value'] = v] *)
Definition set_value (l : loc) (v : Z) : M unit := fun h => Ok (tt, <[l:=v]> h).

(** A new object [{"value": v}]. *)
Definition new_value (v : Z) : M loc := fun h => Ok (length h, h ++ [v]).

(** [for x in xs: ...] where the body replaces [x] by its result. *)
Fixpoint mapM {A B} (f : A -> M B) (xs : list A) : M (list B) :=
  match xs with
  | [] => ret []
  | x :: xs' => y <- f x ;; ys <- mapM f xs' ;; ret (y :: ys)
  end.

(** [for x in xs: ...] where the body updates a variable [acc]. *)
Fixpoint foldM {A B} (f : A -> B -> M A) (xs : list B) (acc : A) : M A :=
  match xs with
  | [] => ret acc
  | x :: xs' => acc' <- f acc x ;; foldM f xs' acc'
  end.

(** ** [generate_100_measures.py] *)

(** [json.dumps(note)]: the text of a note holds the contents of its
    wrapper objects. *)
Definition json_dumps (note : IntervalEvent loc) : M (IntervalEvent Z) :=
  t <- get_value (start_tick note) ;;
  p <- get_value (pitch note) ;;
  ret (mkIntervalEvent (note_id note) t (duration_ticks note) p).

(** [json.loads(text)]: every object of the text is built anew. *)
Definition json_loads (note : IntervalEvent Z) : M (IntervalEvent loc) :=
  t <- new_value (start_tick note) ;;
  p <- new_value (pitch note) ;;
  ret (mkIntervalEvent (note_id note) t (duration_ticks note) p).

(** [max(...)] over the integers an iterable yields. *)
Definition py_max (xs : list Z) : result Z :=
  match xs with
  | [] => Raise ValueError
  | x :: xs' => Ok (fold_left Z.max xs' x)
  end.

(** Lines 23-26, the body of [for note in original_notes]; [events] is the
    list object [voice['interval_events']]. *)
Definition append_shifted (max_tick : Z)
    (events : list (IntervalEvent loc)) (note : IntervalEvent loc)
    : M (list (IntervalEvent loc)) :=
  text <- json_dumps note ;;
  new_note <- json_loads text ;;
  v <- get_value (start_tick new_note) ;;
  set_value (start_tick new_note) (v + max_tick) ;;;
  ret (events ++ [new_note]).

(** Lines 17-26. *)
Definition duplicate_voice (voice : Voice loc) : M (Voice loc) :=
  match interval_events voice with
  | None => ret voice
  | Some events =>
      let original_notes := events in
      ticks <- mapM (fun note => get_value (start_tick note)) original_notes ;;
      m <- lift (py_max ticks) ;;
      let max_tick := m + 7680 in
      events' <- foldM (append_shifted max_tick) original_notes events ;;
      ret (mkVoice (voice_id voice) (Some events'))
  end.

(** Lines 15-16. *)
Definition duplicate_staff (staff : Staff loc) : M (Staff loc) :=
  match voices staff with
  | None => ret staff
  | Some vs =>
      vs' <- mapM duplicate_voice vs ;;
      ret (mkStaff (staff_id staff) (staff_structural_events staff) (Some vs'))
  end.

(** Lines 13-14. *)
Definition duplicate_instrument (instrument : Instrument loc)
    : M (Instrument loc) :=
  match staves instrument with
  | None => ret instrument
  | Some ss =>
      ss' <- mapM duplicate_staff ss ;;
      ret (mkInstrument (instrument_id instrument) (name instrument)
             (instrument_type instrument) (Some ss'))
  end.

(** Lines 11-26. *)
Definition duplicate (score : Score loc) : M (Score loc) :=
  match instruments score with
  | None => ret score
  | Some insts =>
      if (0 <? length insts)%nat then
        insts' <- mapM duplicate_instrument insts ;;
        ret (mkScore (score_id score) (global_structural_events score)
               (Some insts'))
      else ret score
  end.

(** Lines 32-33: the count the script prints after it has written the file,
    [len(score['instruments'][0]['staves'][0]['voices'][0]['interval_events'])]. *)
Definition get_key {A} (key : string) (field : option A) : result A :=
  match field with Some a => Ok a | None => Raise (KeyError key) end.

Definition get_first {A} (xs : list A) : result A :=
  match xs with x :: _ => Ok x | [] => Raise IndexError end.

Definition result_bind {A B} (r : result A) (k : A -> result B) : result B :=
  match r with Ok a => k a | Raise e => Raise e end.

Definition reported_count {T} (score : Score T) : result nat :=
  result_bind (get_key "instruments" (instruments score)) (fun insts =>
  result_bind (get_first insts) (fun instrument =>
  result_bind (get_key "staves" (staves instrument)) (fun ss =>
  result_bind (get_first ss) (fun staff =>
  result_bind (get_key "voices" (voices staff)) (fun vs =>
  result_bind (get_first vs) (fun voice =>
  result_bind (get_key "interval_events" (interval_events voice)) (fun events =>
  Ok (length events)))))))).

(** [json.load] and [json.dump] on a whole document: the same tree, with
    every note read from or written to its text. *)
Section Traverse.
Context {A B : Type} (f : IntervalEvent A -> M (IntervalEvent B)).

Definition traverse_option {X Y} (g : X -> M Y) (o : option (list X))
    : M (option (list Y)) :=
  match o with
  | None => ret None
  | Some xs => ys <- mapM g xs ;; ret (Some ys)
  end.

Definition traverse_voice (voice : Voice A) : M (Voice B) :=
  events <- traverse_option f (interval_events voice) ;;
  ret (mkVoice (voice_id voice) events).

Definition traverse_staff (staff : Staff A) : M (Staff B) :=
  vs <- traverse_option traverse_voice (voices staff) ;;
  ret (mkStaff (staff_id staff) (staff_structural_events staff) vs).

Definition traverse_instrument (instrument : Instrument A) : M (Instrument B) :=
  ss <- traverse_option traverse_staff (staves instrument) ;;
  ret (mkInstrument (instrument_id instrument) (name instrument)
         (instrument_type instrument) ss).

Definition traverse_score (score : Score A) : M (Score B) :=
  insts <- traverse_option traverse_instrument (instruments score) ;;
  ret (mkScore (score_id score) (global_structural_events score) insts).
End Traverse.

Definition json_load : Score Z -> M (Score loc) := traverse_score json_loads.
Definition json_dump : Score loc -> M (Score Z) := traverse_score json_dumps.

(** The script from the document it reads to the document it writes. *)
Definition main (document : Score Z) : result (Score Z) :=
  match (score <- json_load document ;;
         score' <- duplicate score ;;
         json_dump score') [] with
  | Ok (written, _) => Ok written
  | Raise e => Raise e
  end.

(** ** Views of a document in memory *)

(** A note's addresses are allocated. *)
Definition valid_event (h : heap) (e : IntervalEvent loc) : Prop :=
  (start_tick e < length h)%nat /\ (pitch e < length h)%nat.

Definition valid_voice (h : heap) (v : Voice loc) : Prop :=
  Forall (valid_event h) (voice_events v).

Definition valid_staff (h : heap) (s : Staff loc) : Prop :=
  Forall (valid_voice h) (default [] (voices s)).

Definition valid_instrument (h : heap) (i : Instrument loc) : Prop :=
  Forall (valid_staff h) (default [] (staves i)).

Definition valid_score (h : heap) (s : Score loc) : Prop :=
  Forall (valid_instrument h) (default [] (instruments s)).

(** The note as it would be written out. *)
Definition view (h : heap) (e : IntervalEvent loc) : IntervalEvent Z :=
  mkIntervalEvent (note_id e) (h !!! start_tick e) (duration_ticks e)
    (h !!! pitch e).

(** [m] is the greatest element of [xs]. *)
Definition is_maximum (m : Z) (xs : list Z) : Prop :=
  m ∈ xs /\ Forall (fun x => x <= m) xs.

(** The voices a traversal reaches: below keys that are present. *)
Definition staff_voices {T} (s : Staff T) : list (Voice T) :=
  default [] (voices s).
Definition instrument_voices {T} (i : Instrument T) : list (Voice T) :=
  concat (map staff_voices (default [] (staves i))).
Definition score_voices {T} (s : Score T) : list (Voice T) :=
  concat (map instrument_voices (default [] (instruments s))).

Definition staff_events {T} (s : Staff T) : list (IntervalEvent T) :=
  concat (map voice_events (staff_voices s)).

(** All the notes of a document. *)
Definition score_events {T} (s : Score T) : list (IntervalEvent T) :=
  concat (map voice_events (score_voices s)).

(** The notes the loop of lines 23-26 appends for [events] when the next
    free address is [n], and the objects it adds to the store [h]. *)
Fixpoint copies_at (n : nat) (events : list (IntervalEvent loc))
    : list (IntervalEvent loc) :=
  match events with
  | [] => []
  | e :: es =>
      mkIntervalEvent (note_id e) n (duration_ticks e) (S n)
        :: copies_at (S (S n)) es
  end.

Fixpoint copied_cells (h : heap) (offset : Z) (events : list (IntervalEvent loc))
    : heap :=
  match events with
  | [] => []
  | e :: es =>
      (h !!! start_tick e + offset) :: (h !!! pitch e)
        :: copied_cells h offset es
  end.

(** A note moved in time: the same record but for its start tick. *)
Definition shift (offset : Z) (e : IntervalEvent Z) : IntervalEvent Z :=
  mkIntervalEvent (note_id e) (start_tick e + offset) (duration_ticks e)
    (pitch e).

(** ** What a pass may change

    [h] is the store before the pass and [h'] the store after it.  A voice
    keeps its identifier; its notes are the notes it had, followed by one
    copy of each, shifted by an offset that is read from this voice's own
    notes in [h]. *)
Definition voice_frame (h h' : heap) (v v' : Voice loc) : Prop :=
  voice_id v' = voice_id v /\
  valid_voice h' v' /\
  match interval_events v with
  | None => interval_events v' = None
  | Some events =>
      exists copies max_tick,
        interval_events v' = Some (events ++ copies) /\
        is_maximum max_tick (map (fun e => h !!! start_tick e) events) /\
        Forall2 (fun e c => view h' c = shift (max_tick + 7680) (view h e))
          events copies
  end.

(** Two optional lists are both absent, or both present and related
    element by element. *)
Definition children {X Y} (R : X -> Y -> Prop)
    : option (list X) -> option (list Y) -> Prop :=
  option_Forall2 (Forall2 R).

Definition staff_frame (h h' : heap) (s s' : Staff loc) : Prop :=
  staff_id s' = staff_id s /\
  staff_structural_events s' = staff_structural_events s /\
  children (voice_frame h h') (voices s) (voices s').

Definition instrument_frame (h h' : heap) (i i' : Instrument loc) : Prop :=
  instrument_id i' = instrument_id i /\
  name i' = name i /\
  instrument_type i' = instrument_type i /\
  children (staff_frame h h') (staves i) (staves i').

Definition score_frame (h h' : heap) (s s' : Score loc) : Prop :=
  score_id s' = score_id s /\
  global_structural_events s' = global_structural_events s /\
  children (instrument_frame h h') (instruments s) (instruments s').

(** ** [generate_dense_fixture.py] *)

(** [range(n)] *)
Definition py_range (n : Z) : list Z := Z.of_nat <$> seq 0 (Z.to_nat n).

(** [format(n, "04d")]: decimal digits, zero-filled after the sign up to a
    total width of four. *)
Definition decimal (n : N) : string := NilEmpty.string_of_uint (N.to_uint n).

Fixpoint zeros (k : nat) : string :=
  match k with
  | O => ""
  | S k' => "0" +:+ zeros k'
  end.

Definition zero_fill (width : nat) (digits : string) : string :=
  zeros (width - String.length digits) +:+ digits.

Definition format_04d (n : Z) : string :=
  if n <? 0 then "-" +:+ zero_fill 3 (decimal (Z.to_N (- n)))
  else zero_fill 4 (decimal (Z.to_N n)).

Definition id_suffix : string := "-8400-e29b-41d4-a716-446655440000".

Section NoteLoop.
(** The constants of the script and what differs between its two loops. *)
Variables measure_count ticks_per_measure note_duration notes_per_measure : Z.
Variable prefix : string.
Variable pitches : list Z.

(** The dictionary appended at lines 40-45 and 59-64.  The pitch lists of
    the script are literals of eight elements, so the index is in range. *)
Definition make_note (measure note_idx note_counter : Z) : IntervalEvent Z :=
  let measure_start := measure * ticks_per_measure in
  let tick := measure_start + note_idx * note_duration in
  let pitch := pitches !!! Z.to_nat (note_idx `mod` Z.of_nat (length pitches)) in
  mkIntervalEvent (prefix +:+ format_04d note_counter +:+ id_suffix)
    tick note_duration pitch.

(** Lines 36-46 and 55-65: the inner loop on the list and the counter. *)
Definition measure_loop (measure : Z) (state : list (IntervalEvent Z) * Z)
    : list (IntervalEvent Z) * Z :=
  fold_left
    (fun '(notes, note_counter) note_idx =>
       (notes ++ [make_note measure note_idx note_counter], note_counter + 1))
    (py_range notes_per_measure) state.

(** Lines 31-46 and 50-65. *)
Definition note_loop (start : Z) : list (IntervalEvent Z) * Z :=
  fold_left (fun state measure => measure_loop measure state)
    (py_range measure_count) ([], start).

(** The note the loops append in [j]-th place, counting from 0. *)
Definition nth_note (start : Z) (j : nat) : IntervalEvent Z :=
  let n := Z.to_nat notes_per_measure in
  make_note (Z.of_nat (j / n)) (Z.of_nat (j mod n)) (start + Z.of_nat j).
End NoteLoop.

Definition MEASURES : Z := 30.
Definition TICKS_PER_MEASURE : Z := 3840.
Definition EIGHTH_NOTE_DURATION : Z := 480.
Definition NOTES_PER_MEASURE : Z := 8.

Definition treble_pitches : list Z := [60; 62; 64; 65; 67; 69; 71; 72].
Definition bass_pitches : list Z := [48; 50; 52; 53; 55; 57; 59; 60].

Definition treble_notes : list (IntervalEvent Z) :=
  fst (note_loop MEASURES TICKS_PER_MEASURE EIGHTH_NOTE_DURATION
         NOTES_PER_MEASURE "tn" treble_pitches 10).

Definition bass_notes : list (IntervalEvent Z) :=
  fst (note_loop MEASURES TICKS_PER_MEASURE EIGHTH_NOTE_DURATION
         NOTES_PER_MEASURE "bn" bass_pitches 10000).

Definition generate_dense_fixture : Score Z :=
  let score_id := "aa0e8400-e29b-41d4-a716-446655440000" in
  let instrument_id := "bb0e8400-e29b-41d4-a716-446655440001" in
  let treble_staff_id := "cc0e8400-e29b-41d4-a716-446655440002" in
  let bass_staff_id := "dd0e8400-e29b-41d4-a716-446655440003" in
  let treble_voice_id := "ee0e8400-e29b-41d4-a716-446655440004" in
  let bass_voice_id := "ff0e8400-e29b-41d4-a716-446655440005" in
  mkScore score_id
    [Tempo 0 120; TimeSignature 0 4 4]
    (Some
       [mkInstrument instrument_id "Piano" "piano"
          (Some
             [mkStaff treble_staff_id [Clef 0 "Treble"; KeySignature 0 0]
                (Some [mkVoice treble_voice_id (Some treble_notes)]);
              mkStaff bass_staff_id [Clef 0 "Bass"; KeySignature 0 0]
                (Some [mkVoice bass_voice_id (Some bass_notes)])])]).

(** Line 148, the duration the script reports. *)
Definition reported_duration : Z := MEASURES * TICKS_PER_MEASURE.

(** The staves of the fixture, in order. *)
Definition fixture_staves : list (Staff Z) :=
  concat (map (fun i => default [] (staves i))
            (default [] (instruments generate_dense_fixture))).

(** ** Example documents *)

Definition scenario_B_voice : Voice Z :=
  mkVoice "v1"
    (Some [mkIntervalEvent "a" 0 480 60; mkIntervalEvent "b" 480 480 62;
           mkIntervalEvent "c" 960 480 64]).

Definition scenario_B_document : Score Z :=
  mkScore "s" [Tempo 0 120]
    (Some [mkInstrument "i" "Piano" "piano"
             (Some [mkStaff "st" [Clef 0 "Treble"] (Some [scenario_B_voice])])]).

(** The voice of scenario B as [json.load] builds it in an empty store. *)
Definition scenario_B_heap : heap := [0; 60; 480; 62; 960; 64].

Definition scenario_B_loaded : Voice loc :=
  mkVoice "v1"
    (Some [mkIntervalEvent "a" 0%nat 480 1%nat;
           mkIntervalEvent "b" 2%nat 480 3%nat;
           mkIntervalEvent "c" 4%nat 480 5%nat]).

Definition scenario_B_score : Score loc :=
  mkScore "s" [Tempo 0 120]
    (Some [mkInstrument "i" "Piano" "piano"
             (Some [mkStaff "st" [Clef 0 "Treble"] (Some [scenario_B_loaded])])]).

(** Scenario C: the second voice has the key and no notes. *)
Definition scenario_C_document : Score Z :=
  mkScore "s" [Tempo 0 120]
    (Some [mkInstrument "i" "Piano" "piano"
             (Some [mkStaff "st" [Clef 0 "Treble"]
                      (Some [scenario_B_voice; mkVoice "v2" (Some [])])])]).

(** Documents with a key missing at each of the four levels. *)
Definition no_instruments : Score loc := mkScore "s" [Tempo 0 120] None.
Definition no_staves : Instrument loc := mkInstrument "i" "Piano" "piano" None.
Definition no_voices : Staff loc := mkStaff "st" [Clef 0 "Treble"] None.
Definition no_interval_events : Voice loc := mkVoice "v" None.

Definition partial_score : Score loc :=
  mkScore "s" [Tempo 0 120]
    (Some [no_staves;
           mkInstrument "i2" "Piano" "piano"
             (Some [no_voices;
                    mkStaff "st2" [Clef 0 "Bass"]
                      (Some [no_interval_events; scenario_B_loaded])])]).

(** ** A document read out of the store *)

(** What [json.dump] writes for a node held in the store [h]. *)
Definition read_voice (h : heap) (v : Voice loc) : Voice Z :=
  mkVoice (voice_id v) (option_map (map (view h)) (interval_events v)).

Definition read_staff (h : heap) (s : Staff loc) : Staff Z :=
  mkStaff (staff_id s) (staff_structural_events s)
    (option_map (map (read_voice h)) (voices s)).

Definition read_instrument (h : heap) (i : Instrument loc) : Instrument Z :=
  mkInstrument (instrument_id i) (name i) (instrument_type i)
    (option_map (map (read_staff h)) (staves i)).

Definition read_score (h : heap) (s : Score loc) : Score Z :=
  mkScore (score_id s) (global_structural_events s)
    (option_map (map (read_instrument h)) (instruments s)).

(** ** What the script changes in a document

    [v] is a voice of the document read and [v'] the voice in its place in
    the document written. *)
Definition written_voice (v v' : Voice Z) : Prop :=
  voice_id v' = voice_id v /\
  match interval_events v with
  | None => interval_events v' = None
  | Some events =>
      exists max_tick,
        is_maximum max_tick (map start_tick events) /\
        interval_events v' =
          Some (events ++ map (shift (max_tick + 7680)) events)
  end.

Definition written_staff (s s' : Staff Z) : Prop :=
  staff_id s' = staff_id s /\
  staff_structural_events s' = staff_structural_events s /\
  children written_voice (voices s) (voices s').

Definition written_instrument (i i' : Instrument Z) : Prop :=
  instrument_id i' = instrument_id i /\
  name i' = name i /\
  instrument_type i' = instrument_type i /\
  children written_staff (staves i) (staves i').

Definition written_score (s s' : Score Z) : Prop :=
  score_id s' = score_id s /\
  global_structural_events s' = global_structural_events s /\
  children written_instrument (instruments s) (instruments s').

(** The start ticks of a voice, in the order of its list. *)
Definition voice_ticks (v : Voice Z) : list Z := map start_tick (voice_events v).

(** Ticks that never go down along the list. *)
Definition ascending (ticks : list Z) : Prop :=
  forall (i j : nat) a b,
    (i < j)%nat -> ticks !! i = Some a -> ticks !! j = Some b -> a <= b.

(** The count of lines 32-33 after a pass, from the count before it. *)
Definition doubled (r : result nat) : result nat :=
  match r with Ok n => Ok (2 * n)%nat | Raise e => Raise e end.

(** A document whose only voice has no key [interval_events]. *)
Definition keyless_document : Score Z :=
  mkScore "s" [Tempo 0 120]
    (Some [mkInstrument "i" "Piano" "piano"
             (Some [mkStaff "st" [Clef 0 "Treble"] (Some [mkVoice "v" None])])]).

(** The addresses of the two wrapper objects of a note in memory. *)
Definition note_objects (e : IntervalEvent loc) : list loc :=
  [start_tick e; pitch e].

(** ** Examples *)

Example main_scenario_B :
  option_map (fun d => map start_tick (score_events d))
    (match main scenario_B_document with Ok d => Some d | Raise _ => None end)
  = Some [0; 480; 960; 8640; 9120; 9600].
Proof. vm_compute. reflexivity. Qed.

Example json_load_scenario_B :
  json_load scenario_B_document [] = Ok (scenario_B_score, scenario_B_heap).
Proof. reflexivity. Qed.

Example treble_first_ids :
  map note_id (take 2 treble_notes) =
  ["tn0010-8400-e29b-41d4-a716-446655440000";
   "tn0011-8400-e29b-41d4-a716-446655440000"].
Proof. vm_compute. reflexivity. Qed.

Example bass_first_id :
  map note_id (take 1 bass_notes) = ["bn10000-8400-e29b-41d4-a716-446655440000"].
Proof. vm_compute. reflexivity. Qed.

Example treble_shape :
  length treble_notes = 240%nat /\
  map start_tick (take 3 treble_notes) = [0; 480; 960] /\
  map pitch (take 9 treble_notes) = [60; 62; 64; 65; 67; 69; 71; 72; 60] /\
  option_map start_tick (treble_notes !! 239%nat) = Some 114720.
Proof. vm_compute. repeat split. Qed.

(** ** The monad *)

Lemma bind_Ok {A B} (m : M A) (k : A -> M B) h a h' :
  m h = Ok (a, h') -> bind m k h = k a h'.
Proof. intros E. unfold bind. rewrite E. reflexivity. Qed.

Lemma bind_Raise {A B} (m : M A) (k : A -> M B) h e :
  m h = Raise e -> bind m k h = Raise e.
Proof. intros E. unfold bind. rewrite E. reflexivity. Qed.

Lemma bind_inv_Ok {A B} (m : M A) (k : A -> M B) h b h2 :
  bind m k h = Ok (b, h2) ->
  exists a h1, m h = Ok (a, h1) /\ k a h1 = Ok (b, h2).
Proof.
  unfold bind. destruct (m h) as [[a h1]|e]; [|discriminate].
  intros E. exists a, h1. split; [reflexivity|exact E].
Qed.

(** ** The store *)

Lemma valid_event_app h k e : valid_event h e -> valid_event (h ++ k) e.
Proof. unfold valid_event. rewrite length_app. lia. Qed.

Lemma view_app h k e : valid_event h e -> view (h ++ k) e = view h e.
Proof.
  intros [Ht Hp]. unfold view.
  rewrite !lookup_total_app_l by assumption. reflexivity.
Qed.

Lemma json_dumps_view note h : json_dumps note h = Ok (view h note, h).
Proof. reflexivity. Qed.

Lemma json_loads_new note h :
  json_loads note h =
  Ok (mkIntervalEvent (note_id note) (length h) (duration_ticks note)
        (S (length h)),
      h ++ [start_tick note; pitch note]).
Proof.
  unfold json_loads, bind, new_value, ret. simpl.
  rewrite length_app. simpl. rewrite Nat.add_1_r, <- app_assoc. reflexivity.
Qed.

(** One round of the loop: the store grows by the two objects of the copy,
    the first one already shifted. *)
Lemma append_shifted_run max_tick events note h :
  append_shifted max_tick events note h =
  Ok (events ++ [mkIntervalEvent (note_id note) (length h)
                   (duration_ticks note) (S (length h))],
      h ++ [h !!! start_tick note + max_tick; h !!! pitch note]).
Proof.
  unfold append_shifted.
  rewrite (bind_Ok _ _ _ _ _ (json_dumps_view note h)).
  rewrite (bind_Ok _ _ _ _ _ (json_loads_new _ h)).
  unfold bind, get_value, set_value, ret. simpl.
  rewrite list_lookup_total_middle by reflexivity.
  rewrite insert_app_r_alt by lia. rewrite Nat.sub_diag. reflexivity.
Qed.

(** The whole loop, started with [hx] already added to the store [h0] in
    which the original notes live. *)
Lemma append_loop max_tick h0 : forall rest events hx,
  Forall (valid_event h0) rest ->
  foldM (append_shifted max_tick) rest events (h0 ++ hx) =
  Ok (events ++ copies_at (length h0 + length hx) rest,
      h0 ++ hx ++ copied_cells h0 max_tick rest).
Proof.
  induction rest as [|e rest IH]; intros events hx Hv; simpl.
  - unfold ret. rewrite !app_nil_r. reflexivity.
  - inversion Hv as [|? ? He Hrest]; subst.
    rewrite (bind_Ok _ _ _ _ _ (append_shifted_run _ _ _ _)).
    destruct He as [Ht Hp].
    rewrite !lookup_total_app_l by assumption.
    rewrite <- app_assoc.
    rewrite (IH _ (hx ++ [h0 !!! start_tick e + max_tick; h0 !!! pitch e]) Hrest).
    rewrite !length_app. simpl.
    replace (length h0 + (length hx + 2))%nat
      with (S (S (length h0 + length hx))) by lia.
    rewrite <- !app_assoc. simpl. reflexivity.
Qed.

Lemma mapM_get_ticks (events : list (IntervalEvent loc)) h :
  mapM (fun note => get_value (start_tick note)) events h =
  Ok (map (fun note => h !!! start_tick note) events, h).
Proof.
  induction events as [|e es IH]; simpl; [reflexivity|].
  unfold bind at 1. simpl. unfold bind at 1. rewrite IH. reflexivity.
Qed.

Lemma py_max_is_maximum xs m : py_max xs = Ok m -> is_maximum m xs.
Proof.
  destruct xs as [|x xs]; simpl; [discriminate|].
  intros [= <-]. revert x.
  induction xs as [|y ys IH]; intros x; simpl.
  - split; [left|]. repeat constructor. lia.
  - destruct (IH (Z.max x y)) as [Hin Hall].
    inversion Hall as [|? ? Hxy Hys]; subst.
    split.
    + apply elem_of_cons in Hin as [Heq|Hin].
      * rewrite Heq. destruct (Z.max_spec x y) as [[_ ->]|[_ ->]].
        -- right; left.
        -- left.
      * right; right; exact Hin.
    + constructor; [lia|]. constructor; [lia|exact Hys].
Qed.

Lemma py_max_nonempty xs : xs <> [] -> exists m, py_max xs = Ok m.
Proof. destruct xs; [congruence|]. intros _. eexists. reflexivity. Qed.

(** The pass on a voice with notes: what it returns and what it adds. *)
Lemma duplicate_voice_run voice events h m :
  interval_events voice = Some events ->
  Forall (valid_event h) events ->
  py_max (map (fun note => h !!! start_tick note) events) = Ok m ->
  duplicate_voice voice h =
  Ok (mkVoice (voice_id voice)
        (Some (events ++ copies_at (length h) events)),
      h ++ copied_cells h (m + 7680) events).
Proof.
  intros He Hv Hm. unfold duplicate_voice. rewrite He.
  rewrite (bind_Ok _ _ _ _ _ (mapM_get_ticks events h)).
  unfold lift. unfold bind at 1. rewrite Hm.
  unfold bind at 1.
  pose proof (append_loop (m + 7680) h events events [] Hv) as Hloop.
  rewrite app_nil_r in Hloop. rewrite Hloop. simpl.
  rewrite Nat.add_0_r. reflexivity.
Qed.


Lemma copies_at_length events : forall n, length (copies_at n events) = length events.
Proof. induction events as [|e es IH]; intros n; simpl; [|rewrite IH]; reflexivity. Qed.

Lemma copies_at_lookup events : forall (n i : nat) e,
  events !! i = Some e ->
  copies_at n events !! i =
  Some (mkIntervalEvent (note_id e) (n + 2 * i)%nat (duration_ticks e)
          (S (n + 2 * i))).
Proof.
  induction events as [|e0 es IH]; intros n i e Hi; [discriminate|].
  destruct i as [|i].
  - injection Hi as ->. simpl. rewrite Nat.add_0_r. reflexivity.
  - change (copies_at (S (S n)) es !! i = Some
              (mkIntervalEvent (note_id e) (n + 2 * S i)%nat (duration_ticks e)
                 (S (n + 2 * S i)))).
    rewrite (IH (S (S n)) i e Hi).
    replace (S (S n) + 2 * i)%nat with (n + 2 * S i)%nat by lia.
    reflexivity.
Qed.

Lemma copied_cells_length h offset events :
  length (copied_cells h offset events) = (2 * length events)%nat.
Proof. induction events as [|e es IH]; simpl; [reflexivity|]. rewrite IH. lia. Qed.

Lemma copied_cells_lookup h offset events : forall (i : nat) e,
  events !! i = Some e ->
  copied_cells h offset events !! (2 * i)%nat = Some (h !!! start_tick e + offset)
  /\ copied_cells h offset events !! (S (2 * i)) = Some (h !!! pitch e).
Proof.
  induction events as [|e0 es IH]; intros i e Hi; [discriminate|].
  destruct i as [|i].
  - injection Hi as ->. split; reflexivity.
  - replace (2 * S i)%nat with (S (S (2 * i))) by lia.
    apply (IH i e Hi).
Qed.

(** A copy, read in the store after the pass (and after anything added
    later), is its original shifted. *)
Lemma copy_view h offset events later (i : nat) e c :
  events !! i = Some e ->
  copies_at (length h) events !! i = Some c ->
  view (h ++ copied_cells h offset events ++ later) c = shift offset (view h e).
Proof.
  intros Hi Hc. rewrite (copies_at_lookup _ _ _ _ Hi) in Hc.
  injection Hc as <-.
  destruct (copied_cells_lookup h offset events i e Hi) as [Ht Hp].
  unfold view, shift. cbn [note_id start_tick duration_ticks pitch]. f_equal.
  - rewrite lookup_total_app_r by lia.
    apply list_lookup_total_correct.
    apply lookup_lt_Some in Ht as Hlt.
    rewrite lookup_app_l by lia.
    rewrite <- Ht. f_equal. lia.
  - rewrite lookup_total_app_r by lia.
    apply list_lookup_total_correct.
    apply lookup_lt_Some in Hp as Hlt.
    rewrite lookup_app_l by lia.
    rewrite <- Hp. f_equal. lia.
Qed.

Lemma copy_valid h offset events later (i : nat) e c :
  events !! i = Some e ->
  copies_at (length h) events !! i = Some c ->
  valid_event (h ++ copied_cells h offset events ++ later) c.
Proof.
  intros Hi Hc. rewrite (copies_at_lookup _ _ _ _ Hi) in Hc.
  injection Hc as <-.
  apply lookup_lt_Some in Hi.
  unfold valid_event. cbn [start_tick pitch].
  rewrite !length_app, copied_cells_length. lia.
Qed.

(** ** Loops over the children of a node *)

Lemma children_impl {X Y} (P : X -> Prop) (R R' : X -> Y -> Prop) o o' :
  Forall P (default [] o) ->
  (forall x y, P x -> R x y -> R' x y) ->
  children R o o' -> children R' o o'.
Proof.
  intros HP Himp Hc. destruct Hc as [xs ys Hxy|]; constructor.
  simpl in HP. induction Hxy as [|x y xs ys Hx Hxy IH]; constructor.
  - inversion HP; subst. apply Himp; assumption.
  - inversion HP; subst. apply IH; assumption.
Qed.

Section MapM.
Context {A B : Type} (f : A -> M B).
Variable V : heap -> A -> Prop.
Variable R : heap -> heap -> A -> B -> Prop.
Hypothesis V_grow : forall h k a, V h a -> V (h ++ k) a.
Hypothesis R_later : forall h h' k a b, R h h' a b -> R h (h' ++ k) a b.
Hypothesis R_earlier :
  forall h k h' a b, V h a -> R (h ++ k) h' a b -> R h h' a b.
Hypothesis f_step :
  forall h a b h', V h a -> f a h = Ok (b, h') ->
    (exists k, h' = h ++ k) /\ R h h' a b.

(** A loop whose body only adds to the store relates every element to
    its result, between the store before the loop and the store after. *)
Lemma mapM_frame : forall xs h ys h',
  Forall (V h) xs -> mapM f xs h = Ok (ys, h') ->
  (exists k, h' = h ++ k) /\ Forall2 (R h h') xs ys.
Proof.
  induction xs as [|x xs IH]; intros h ys h' HV Hrun; simpl in Hrun.
  - injection Hrun as <- <-. split; [exists []; symmetry; apply app_nil_r|].
    constructor.
  - inversion HV as [|? ? Hx Hxs]; subst.
    apply bind_inv_Ok in Hrun as (y & h1 & Hy & Hrun).
    apply bind_inv_Ok in Hrun as (ys' & h2 & Hys & Hret).
    injection Hret as <- <-.
    destruct (f_step _ _ _ _ Hx Hy) as [[k1 ->] Hr].
    assert (HV1 : Forall (V (h ++ k1)) xs).
    { eapply List.Forall_impl; [|exact Hxs]. intros a Ha. apply V_grow, Ha. }
    destruct (IH _ _ _ HV1 Hys) as [[k2 ->] Hrs].
    split; [exists (k1 ++ k2); symmetry; apply app_assoc|].
    constructor.
    + apply R_later, Hr.
    + clear - Hxs Hrs R_earlier.
      induction Hrs as [|a b l l' Hab Hl IHl]; constructor.
      * inversion Hxs; subst. eapply R_earlier; eassumption.
      * inversion Hxs; subst. apply IHl; assumption.
Qed.
End MapM.

Lemma Forall2_impl_Forall {X Y} (P : X -> Prop) (Q : Y -> Prop)
    (R R' : X -> Y -> Prop) l k :
  Forall P l -> Forall Q k ->
  (forall x y, P x -> Q y -> R x y -> R' x y) ->
  Forall2 R l k -> Forall2 R' l k.
Proof.
  intros HP HQ Himp HR. revert HP HQ.
  induction HR as [|x y l k Hxy HR IH]; intros HP HQ; constructor.
  - inversion HP; inversion HQ; subst. apply Himp; assumption.
  - inversion HP; inversion HQ; subst. apply IH; assumption.
Qed.

(** ** The frame of a voice *)

Lemma valid_voice_grow h k v : valid_voice h v -> valid_voice (h ++ k) v.
Proof.
  unfold valid_voice. apply List.Forall_impl. intros e. apply valid_event_app.
Qed.

Lemma ticks_app h k (events : list (IntervalEvent loc)) :
  Forall (valid_event h) events ->
  map (fun e => (h ++ k) !!! start_tick e) events =
  map (fun e => h !!! start_tick e) events.
Proof.
  induction 1 as [|e es [He _] _ IH]; simpl; [reflexivity|].
  rewrite IH, lookup_total_app_l by assumption. reflexivity.
Qed.

Lemma voice_frame_later h h' k v v' :
  voice_frame h h' v v' -> voice_frame h (h' ++ k) v v'.
Proof.
  intros (Hid & Hv' & Hev). split; [exact Hid|].
  split; [apply valid_voice_grow, Hv'|].
  destruct (interval_events v) as [events|]; [|exact Hev].
  destruct Hev as (copies & m & He' & Hm & Hc).
  exists copies, m. split; [exact He'|]. split; [exact Hm|].
  unfold valid_voice, voice_events in Hv'. rewrite He' in Hv'. simpl in Hv'.
  apply Forall_app in Hv' as [_ Hvc].
  eapply (Forall2_impl_Forall (fun _ => True) (valid_event h'));
    [apply Forall_true; trivial|exact Hvc| |exact Hc].
  intros e c _ Hvalid Heq. cbv beta in *.
  rewrite view_app by assumption. exact Heq.
Qed.

Lemma voice_frame_earlier h k h' v v' :
  valid_voice h v -> voice_frame (h ++ k) h' v v' -> voice_frame h h' v v'.
Proof.
  intros Hv (Hid & Hv' & Hev). split; [exact Hid|]. split; [exact Hv'|].
  unfold valid_voice, voice_events in Hv.
  destruct (interval_events v) as [events|]; [|exact Hev]. simpl in Hv.
  destruct Hev as (copies & m & He' & Hm & Hc).
  exists copies, m. split; [exact He'|].
  rewrite ticks_app in Hm by assumption. split; [exact Hm|].
  eapply (Forall2_impl_Forall (valid_event h) (fun _ => True));
    [exact Hv|apply Forall_true; trivial| |exact Hc].
  intros e c Hvalid _ Heq. cbv beta in *.
  rewrite view_app in Heq by assumption. exact Heq.
Qed.

Lemma duplicate_voice_empty voice h :
  interval_events voice = Some [] -> duplicate_voice voice h = Raise ValueError.
Proof. intros He. unfold duplicate_voice. rewrite He. reflexivity. Qed.

Lemma duplicate_voice_absent voice h :
  interval_events voice = None -> duplicate_voice voice h = Ok (voice, h).
Proof. intros He. unfold duplicate_voice. rewrite He. reflexivity. Qed.

(** The pass on a voice that has notes, with all that is known of the
    result. *)
Lemma duplicate_voice_notes voice events h :
  interval_events voice = Some events ->
  events <> [] ->
  Forall (valid_event h) events ->
  exists copies max_tick,
    duplicate_voice voice h =
      Ok (mkVoice (voice_id voice) (Some (events ++ copies)),
          h ++ copied_cells h (max_tick + 7680) events) /\
    copies = copies_at (length h) events /\
    is_maximum max_tick (map (fun e => h !!! start_tick e) events).
Proof.
  intros He Hne Hv.
  destruct (py_max_nonempty (map (fun e => h !!! start_tick e) events))
    as [m Hm].
  { destruct events; [congruence|discriminate]. }
  exists (copies_at (length h) events), m.
  split; [apply duplicate_voice_run; assumption|].
  split; [reflexivity|]. apply py_max_is_maximum, Hm.
Qed.

Lemma copies_Forall2 h offset (events : list (IntervalEvent loc)) :
  Forall2
    (fun e c =>
       view (h ++ copied_cells h offset events) c = shift offset (view h e) /\
       valid_event (h ++ copied_cells h offset events) c)
    events (copies_at (length h) events).
Proof.
  apply Forall2_same_length_lookup_2; [symmetry; apply copies_at_length|].
  intros i e c Hi Hc.
  pose proof (copy_view h offset events [] i e c Hi Hc) as Hview.
  pose proof (copy_valid h offset events [] i e c Hi Hc) as Hvalid.
  rewrite app_nil_r in Hview, Hvalid. split; assumption.
Qed.

Lemma duplicate_voice_frame h v v' h' :
  valid_voice h v -> duplicate_voice v h = Ok (v', h') ->
  (exists k, h' = h ++ k) /\ voice_frame h h' v v'.
Proof.
  intros Hv Hrun. unfold valid_voice, voice_events in Hv.
  destruct (interval_events v) as [events|] eqn:He.
  - simpl in Hv. destruct (nil_or_length_pos events) as [->|Hlen].
    { rewrite (duplicate_voice_empty _ _ He) in Hrun. discriminate. }
    assert (Hne : events <> []) by (intros ->; apply Hlen; reflexivity).
    destruct (duplicate_voice_notes v events h He Hne Hv)
      as (copies & m & Hrun' & -> & Hm).
    rewrite Hrun' in Hrun. injection Hrun as <- <-.
    split; [eexists; reflexivity|].
    pose proof (copies_Forall2 h (m + 7680) events) as Hc.
    split; [reflexivity|]. split.
    + unfold valid_voice, voice_events. cbn [interval_events default].
      apply Forall_app. split.
      * eapply List.Forall_impl; [|exact Hv]. intros e. apply valid_event_app.
      * eapply Forall2_Forall_r; [exact Hc|].
        apply Forall_true. intros e c [_ H]. exact H.
    + rewrite He. exists (copies_at (length h) events), m.
      split; [reflexivity|]. split; [exact Hm|].
      eapply Forall2_impl; [|exact Hc]. intros e c [H _]. exact H.
  - rewrite (duplicate_voice_absent _ _ He) in Hrun. injection Hrun as <- <-.
    split; [exists []; symmetry; apply app_nil_r|].
    split; [reflexivity|]. split.
    + unfold valid_voice, voice_events. rewrite He. constructor.
    + rewrite He. reflexivity.
Qed.

(** ** The frame of a staff, an instrument, a score *)

Lemma children_later {X Y} (R R' : X -> Y -> Prop) o o' :
  (forall x y, R x y -> R' x y) -> children R o o' -> children R' o o'.
Proof.
  intros Himp. apply (children_impl (fun _ => True)).
  - apply Forall_true. trivial.
  - intros x y _. apply Himp.
Qed.

Ltac frame_later lower :=
  eapply children_later; [|eassumption]; intros; apply lower; assumption.

Ltac frame_earlier lower :=
  eapply children_impl; [eassumption| |eassumption];
  intros; eapply lower; eassumption.

Lemma valid_staff_grow h k s : valid_staff h s -> valid_staff (h ++ k) s.
Proof.
  unfold valid_staff. apply List.Forall_impl. intros v. apply valid_voice_grow.
Qed.

Lemma staff_frame_later h h' k s s' :
  staff_frame h h' s s' -> staff_frame h (h' ++ k) s s'.
Proof.
  intros (Hid & Hev & Hch). repeat split; try assumption.
  frame_later voice_frame_later.
Qed.

Lemma staff_frame_earlier h k h' s s' :
  valid_staff h s -> staff_frame (h ++ k) h' s s' -> staff_frame h h' s s'.
Proof.
  intros Hv (Hid & Hev & Hch). repeat split; try assumption.
  unfold valid_staff in Hv. frame_earlier voice_frame_earlier.
Qed.

Lemma duplicate_staff_frame h s s' h' :
  valid_staff h s -> duplicate_staff s h = Ok (s', h') ->
  (exists k, h' = h ++ k) /\ staff_frame h h' s s'.
Proof.
  intros Hv Hrun. unfold duplicate_staff, valid_staff in *.
  unfold staff_frame. destruct (voices s) as [vs|] eqn:E; simpl in Hv.
  - apply bind_inv_Ok in Hrun as (vs' & h1 & Hvs & Hret).
    injection Hret as <- <-.
    destruct (mapM_frame duplicate_voice valid_voice voice_frame
                valid_voice_grow voice_frame_later voice_frame_earlier
                duplicate_voice_frame _ _ _ _ Hv Hvs) as [Hk Hall].
    split; [exact Hk|]. repeat split. constructor. exact Hall.
  - injection Hrun as <- <-.
    split; [exists []; symmetry; apply app_nil_r|].
    repeat split. rewrite E. constructor.
Qed.

Lemma valid_instrument_grow h k i :
  valid_instrument h i -> valid_instrument (h ++ k) i.
Proof.
  unfold valid_instrument. apply List.Forall_impl. intros s.
  apply valid_staff_grow.
Qed.

Lemma instrument_frame_later h h' k i i' :
  instrument_frame h h' i i' -> instrument_frame h (h' ++ k) i i'.
Proof.
  intros (Hid & Hn & Ht & Hch). repeat split; try assumption.
  frame_later staff_frame_later.
Qed.

Lemma instrument_frame_earlier h k h' i i' :
  valid_instrument h i -> instrument_frame (h ++ k) h' i i' ->
  instrument_frame h h' i i'.
Proof.
  intros Hv (Hid & Hn & Ht & Hch). repeat split; try assumption.
  unfold valid_instrument in Hv. frame_earlier staff_frame_earlier.
Qed.

Lemma duplicate_instrument_frame h i i' h' :
  valid_instrument h i -> duplicate_instrument i h = Ok (i', h') ->
  (exists k, h' = h ++ k) /\ instrument_frame h h' i i'.
Proof.
  intros Hv Hrun. unfold duplicate_instrument, valid_instrument in *.
  unfold instrument_frame. destruct (staves i) as [ss|] eqn:E; simpl in Hv.
  - apply bind_inv_Ok in Hrun as (ss' & h1 & Hss & Hret).
    injection Hret as <- <-.
    destruct (mapM_frame duplicate_staff valid_staff staff_frame
                valid_staff_grow staff_frame_later staff_frame_earlier
                duplicate_staff_frame _ _ _ _ Hv Hss) as [Hk Hall].
    split; [exact Hk|]. repeat split. constructor. exact Hall.
  - injection Hrun as <- <-.
    split; [exists []; symmetry; apply app_nil_r|].
    repeat split. rewrite E. constructor.
Qed.

Lemma duplicate_frame h s s' h' :
  valid_score h s -> duplicate s h = Ok (s', h') ->
  (exists k, h' = h ++ k) /\ score_frame h h' s s'.
Proof.
  intros Hv Hrun. unfold duplicate, valid_score in *.
  unfold score_frame. destruct (instruments s) as [insts|] eqn:E; simpl in Hv.
  - destruct insts as [|i0 insts].
    + injection Hrun as <- <-.
      split; [exists []; symmetry; apply app_nil_r|].
      repeat split. rewrite E. repeat constructor.
    + cbn [length Nat.ltb Nat.leb] in Hrun.
      apply bind_inv_Ok in Hrun as (insts' & h1 & Hi & Hret).
      injection Hret as <- <-.
      destruct (mapM_frame duplicate_instrument valid_instrument
                  instrument_frame valid_instrument_grow
                  instrument_frame_later instrument_frame_earlier
                  duplicate_instrument_frame _ _ _ _ Hv Hi) as [Hk Hall].
      split; [exact Hk|]. repeat split. constructor. exact Hall.
  - injection Hrun as <- <-.
    split; [exists []; symmetry; apply app_nil_r|].
    repeat split. rewrite E. constructor.
Qed.

(** ** When the pass raises *)

Lemma elem_of_concat_map {X Y} (g : X -> list Y) (y : Y) (l : list X) :
  y ∈ concat (map g l) <-> exists x, x ∈ l /\ y ∈ g x.
Proof.
  induction l as [|x0 l IH]; simpl.
  - split; [intros H; inversion H|intros (x & H & _); inversion H].
  - rewrite elem_of_app, IH. split.
    + intros [H|(x & Hx & Hy)].
      * exists x0. split; [left|exact H].
      * exists x. split; [right; exact Hx|exact Hy].
    + intros (x & Hx & Hy). apply elem_of_cons in Hx as [->|Hx].
      * left; exact Hy.
      * right. exists x. split; assumption.
Qed.

Section MapMRaise.
Context {A B : Type} (f : A -> M B).

Lemma mapM_raise_inv : forall xs h e,
  mapM f xs h = Raise e -> exists x h1, x ∈ xs /\ f x h1 = Raise e.
Proof.
  induction xs as [|x xs IH]; intros h e Hrun; simpl in Hrun; [discriminate|].
  unfold bind at 1 in Hrun. destruct (f x h) as [[y h1]|e1] eqn:Hx.
  - unfold bind at 1 in Hrun.
    destruct (mapM f xs h1) as [[ys h2]|e2] eqn:Hxs; [discriminate|].
    injection Hrun as ->.
    destruct (IH _ _ Hxs) as (x' & h' & Hin & Hr).
    exists x', h'. split; [right; exact Hin|exact Hr].
  - injection Hrun as ->. exists x, h. split; [left|exact Hx].
Qed.

Lemma mapM_raise e x : forall xs,
  (forall y h e', y ∈ xs -> f y h = Raise e' -> e' = e) ->
  x ∈ xs -> (forall h, f x h = Raise e) ->
  forall h, mapM f xs h = Raise e.
Proof.
  induction xs as [|x0 xs IH]; intros Honly Hin Hx h.
  - inversion Hin.
  - simpl. unfold bind at 1.
    destruct (f x0 h) as [[y h1]|e1] eqn:Hx0.
    + apply elem_of_cons in Hin as [->|Hin].
      { rewrite Hx in Hx0. discriminate. }
      rewrite (bind_Raise _ _ _ _ (IH ltac:(intros; eapply Honly;
        [right|]; eassumption) Hin Hx h1)). reflexivity.
    + f_equal. eapply Honly; [left|exact Hx0].
Qed.
End MapMRaise.

Lemma append_loop_Ok max_tick : forall rest events h,
  exists r, foldM (append_shifted max_tick) rest events h = Ok r.
Proof.
  induction rest as [|e rest IH]; intros events h; simpl.
  - eexists. reflexivity.
  - rewrite (bind_Ok _ _ _ _ _ (append_shifted_run _ _ _ _)). apply IH.
Qed.

Lemma duplicate_voice_raise_inv v h e :
  duplicate_voice v h = Raise e -> e = ValueError /\ interval_events v = Some [].
Proof.
  unfold duplicate_voice. destruct (interval_events v) as [events|];
    [|discriminate].
  destruct events as [|e0 es]; [intros [= <-]; split; reflexivity|].
  rewrite (bind_Ok _ _ _ _ _ (mapM_get_ticks _ h)).
  unfold bind at 1. simpl lift.
  unfold bind at 1.
  destruct (append_loop_Ok
              (fold_left Z.max (map (fun note => h !!! start_tick note) es)
                 (h !!! start_tick e0) + 7680) (e0 :: es) (e0 :: es) h)
    as [[r h1] Hr].
  simpl map. cbv iota beta. rewrite Hr. discriminate.
Qed.

Lemma duplicate_staff_raise_inv s h e :
  duplicate_staff s h = Raise e ->
  e = ValueError /\ exists v, v ∈ staff_voices s /\ interval_events v = Some [].
Proof.
  unfold duplicate_staff, staff_voices.
  destruct (voices s) as [vs|]; [|discriminate].
  unfold bind. destruct (mapM duplicate_voice vs h) as [[vs' h1]|e1] eqn:Hvs;
    [discriminate|].
  intros [= ->].
  apply mapM_raise_inv in Hvs as (v & h1 & Hin & Hv).
  apply duplicate_voice_raise_inv in Hv as [-> Hv].
  split; [reflexivity|]. exists v. split; assumption.
Qed.

Lemma duplicate_instrument_raise_inv i h e :
  duplicate_instrument i h = Raise e ->
  e = ValueError /\
  exists v, v ∈ instrument_voices i /\ interval_events v = Some [].
Proof.
  unfold duplicate_instrument, instrument_voices.
  destruct (staves i) as [ss|]; [|discriminate].
  unfold bind. destruct (mapM duplicate_staff ss h) as [[ss' h1]|e1] eqn:Hss;
    [discriminate|].
  intros [= ->].
  apply mapM_raise_inv in Hss as (s & h1 & Hin & Hs).
  apply duplicate_staff_raise_inv in Hs as [-> (v & Hv & He)].
  split; [reflexivity|]. exists v. split; [|exact He].
  apply elem_of_concat_map. exists s. split; assumption.
Qed.

Lemma duplicate_raise_inv s h e :
  duplicate s h = Raise e ->
  e = ValueError /\ exists v, v ∈ score_voices s /\ interval_events v = Some [].
Proof.
  unfold duplicate, score_voices.
  destruct (instruments s) as [insts|]; [|discriminate].
  destruct (0 <? length insts)%nat; [|discriminate].
  unfold bind.
  destruct (mapM duplicate_instrument insts h) as [[insts' h1]|e1] eqn:Hi;
    [discriminate|].
  intros [= ->].
  apply mapM_raise_inv in Hi as (i & h1 & Hin & Hi).
  apply duplicate_instrument_raise_inv in Hi as [-> (v & Hv & He)].
  split; [reflexivity|]. exists v. split; [|exact He].
  apply elem_of_concat_map. exists i. split; assumption.
Qed.

Lemma duplicate_staff_raise s v h :
  v ∈ staff_voices s -> interval_events v = Some [] ->
  duplicate_staff s h = Raise ValueError.
Proof.
  unfold staff_voices, duplicate_staff. intros Hin He.
  destruct (voices s) as [vs|]; [|inversion Hin]. simpl in Hin.
  apply bind_Raise. apply (mapM_raise duplicate_voice ValueError v).
  - intros y h0 e' _ Hy. apply duplicate_voice_raise_inv in Hy as [-> _].
    reflexivity.
  - exact Hin.
  - intros h0. apply duplicate_voice_empty, He.
Qed.

Lemma duplicate_instrument_raise i v h :
  v ∈ instrument_voices i -> interval_events v = Some [] ->
  duplicate_instrument i h = Raise ValueError.
Proof.
  unfold instrument_voices, duplicate_instrument. intros Hin He.
  apply elem_of_concat_map in Hin as (s & Hs & Hv).
  destruct (staves i) as [ss|]; [|inversion Hs]. simpl in Hs.
  apply bind_Raise. apply (mapM_raise duplicate_staff ValueError s).
  - intros y h0 e' _ Hy. apply duplicate_staff_raise_inv in Hy as [-> _].
    reflexivity.
  - exact Hs.
  - intros h0. eapply duplicate_staff_raise; eassumption.
Qed.

Lemma duplicate_raise s v h :
  v ∈ score_voices s -> interval_events v = Some [] ->
  duplicate s h = Raise ValueError.
Proof.
  unfold score_voices, duplicate. intros Hin He.
  apply elem_of_concat_map in Hin as (i & Hi & Hv).
  destruct (instruments s) as [insts|]; [|inversion Hi]. simpl in Hi.
  destruct insts as [|i0 insts]; [inversion Hi|].
  cbn [length Nat.ltb Nat.leb].
  apply bind_Raise. apply (mapM_raise duplicate_instrument ValueError i).
  - intros y h0 e' _ Hy. apply duplicate_instrument_raise_inv in Hy as [-> _].
    reflexivity.
  - exact Hi.
  - intros h0. eapply duplicate_instrument_raise; eassumption.
Qed.

(** A loop returns an element unchanged where its body does nothing. *)
Lemma mapM_lookup_noop {A} (f : A -> M A) x : forall xs (i : nat) h ys h',
  mapM f xs h = Ok (ys, h') ->
  xs !! i = Some x -> (forall h0, f x h0 = Ok (x, h0)) ->
  ys !! i = Some x.
Proof.
  induction xs as [|x0 xs IH]; intros i h ys h' Hrun Hi Hx;
    [discriminate|].
  simpl in Hrun.
  apply bind_inv_Ok in Hrun as (y & h1 & Hy & Hrun).
  apply bind_inv_Ok in Hrun as (ys' & h2 & Hys & Hret).
  injection Hret as <- <-.
  destruct i as [|i].
  - injection Hi as ->. rewrite Hx in Hy. injection Hy as <- <-. reflexivity.
  - simpl in *. eapply IH; eassumption.
Qed.

(** ** The duplication of a voice *)

(** What one pass does to a voice that has notes. *)
Lemma duplicate_voice_spec (voice : Voice loc) events h :
  interval_events voice = Some events -> events <> [] ->
  Forall (valid_event h) events ->
  exists voice' h' copies max_tick,
    duplicate_voice voice h = Ok (voice', h') /\
    voice_id voice' = voice_id voice /\
    interval_events voice' = Some (events ++ copies) /\
    length copies = length events /\
    is_maximum max_tick (map (fun e => h !!! start_tick e) events) /\
    (forall (i : nat) e, events !! i = Some e ->
       exists c, copies !! i = Some c /\
                 view h' c = shift (max_tick + 7680) (view h e)) /\
    (forall e, e ∈ events -> view h' e = view h e).
Proof.
  intros He Hne Hv.
  destruct (duplicate_voice_notes voice events h He Hne Hv)
    as (copies & m & Hrun & -> & Hm).
  eexists _, _, (copies_at (length h) events), m.
  split; [exact Hrun|]. split; [reflexivity|]. split; [reflexivity|].
  split; [apply copies_at_length|]. split; [exact Hm|]. split.
  - intros i e Hi. eexists. split; [apply copies_at_lookup, Hi|].
    pose proof (copy_view h (m + 7680) events [] i e _ Hi
                  (copies_at_lookup _ _ _ _ Hi)) as Hview.
    rewrite app_nil_r in Hview. exact Hview.
  - intros e Hin. apply view_app.
    rewrite list.Forall_forall in Hv. apply Hv, Hin.
Qed.

(** A pass that returns: the voice read through its frame. *)
Lemma duplicate_voice_result (voice voice' : Voice loc) h h' :
  valid_voice h voice -> duplicate_voice voice h = Ok (voice', h') ->
  exists copies,
    voice_events voice' = voice_events voice ++ copies /\
    Forall2
      (fun e c =>
         exists max_tick,
           is_maximum max_tick
             (map (fun e => h !!! start_tick e) (voice_events voice)) /\
           view h' c = shift (max_tick + 7680) (view h e))
      (voice_events voice) copies.
Proof.
  intros Hv Hrun.
  destruct (duplicate_voice_frame h voice voice' h' Hv Hrun)
    as [_ (_ & _ & Hev)].
  unfold voice_events. destruct (interval_events voice) as [events|].
  - destruct Hev as (copies & m & -> & Hm & Hc). exists copies. simpl.
    split; [reflexivity|].
    eapply Forall2_impl; [|exact Hc]. intros e c Hview.
    exists m. split; assumption.
  - rewrite Hev. exists []. simpl. split; [reflexivity|constructor].
Qed.

Lemma Forall2_map_eq {X Y} (g : X -> Y) (R : X -> X -> Prop) l k :
  (forall x y, R x y -> g y = g x) -> Forall2 R l k -> map g k = map g l.
Proof.
  intros Hg. induction 1 as [|x y l k Hxy _ IH]; simpl; [reflexivity|].
  rewrite (Hg _ _ Hxy), IH. reflexivity.
Qed.

Lemma duplicate_voice_returns (voice : Voice loc) h :
  interval_events voice <> Some [] ->
  exists voice' h', duplicate_voice voice h = Ok (voice', h').
Proof.
  intros Hne. destruct (duplicate_voice voice h) as [[v' h']|e] eqn:Hrun.
  - exists v', h'. reflexivity.
  - apply duplicate_voice_raise_inv in Hrun as [_ He]. contradiction.
Qed.

(** ** Loading a document *)

Section Load.
Context {X Y : Type} (g : X -> M Y) (Q : heap -> Y -> Prop).
Hypothesis Q_grow : forall h k y, Q h y -> Q (h ++ k) y.
Hypothesis g_step :
  forall h x y h', g x h = Ok (y, h') -> (exists k, h' = h ++ k) /\ Q h' y.

Lemma traverse_option_valid o h o' h' :
  traverse_option g o h = Ok (o', h') ->
  (exists k, h' = h ++ k) /\ Forall (Q h') (default [] o').
Proof.
  destruct o as [xs|]; simpl; intros Hrun.
  - apply bind_inv_Ok in Hrun as (ys & h1 & Hmap & Hret).
    injection Hret as <- <-.
    destruct (mapM_frame g (fun _ _ => True) (fun _ h2 _ y => Q h2 y)
                ltac:(trivial) ltac:(intros; apply Q_grow; assumption)
                ltac:(trivial) ltac:(intros; eapply g_step; eassumption)
                xs h ys h1 ltac:(apply Forall_true; trivial) Hmap)
      as [Hk Hall].
    split; [exact Hk|]. simpl.
    eapply Forall2_Forall_r; [exact Hall|]. apply Forall_true. trivial.
  - injection Hrun as <- <-. split; [exists []; symmetry; apply app_nil_r|].
    constructor.
Qed.
End Load.

Lemma json_loads_valid h e e' h' :
  json_loads e h = Ok (e', h') -> (exists k, h' = h ++ k) /\ valid_event h' e'.
Proof.
  rewrite json_loads_new. intros [= <- <-]. split; [eexists; reflexivity|].
  unfold valid_event. cbn [start_tick pitch]. rewrite length_app. simpl. lia.
Qed.

Lemma traverse_voice_valid h v v' h' :
  traverse_voice json_loads v h = Ok (v', h') ->
  (exists k, h' = h ++ k) /\ valid_voice h' v'.
Proof.
  unfold traverse_voice. intros Hrun.
  apply bind_inv_Ok in Hrun as (o & h1 & Ho & Hret). injection Hret as <- <-.
  eapply (traverse_option_valid json_loads valid_event); [| |exact Ho].
  - intros. apply valid_event_app. assumption.
  - apply json_loads_valid.
Qed.

Lemma traverse_staff_valid h s s' h' :
  traverse_staff json_loads s h = Ok (s', h') ->
  (exists k, h' = h ++ k) /\ valid_staff h' s'.
Proof.
  unfold traverse_staff. intros Hrun.
  apply bind_inv_Ok in Hrun as (o & h1 & Ho & Hret). injection Hret as <- <-.
  eapply (traverse_option_valid _ valid_voice); [| |exact Ho].
  - intros. apply valid_voice_grow. assumption.
  - apply traverse_voice_valid.
Qed.

Lemma traverse_instrument_valid h i i' h' :
  traverse_instrument json_loads i h = Ok (i', h') ->
  (exists k, h' = h ++ k) /\ valid_instrument h' i'.
Proof.
  unfold traverse_instrument. intros Hrun.
  apply bind_inv_Ok in Hrun as (o & h1 & Ho & Hret). injection Hret as <- <-.
  eapply (traverse_option_valid _ valid_staff); [| |exact Ho].
  - intros. apply valid_staff_grow. assumption.
  - apply traverse_staff_valid.
Qed.

(** Every address of a document that [json.load] has built is allocated. *)
Lemma json_load_valid document h score h' :
  json_load document h = Ok (score, h') -> valid_score h' score.
Proof.
  unfold json_load, traverse_score. intros Hrun.
  apply bind_inv_Ok in Hrun as (o & h1 & Ho & Hret). injection Hret as <- <-.
  eapply (traverse_option_valid _ valid_instrument); [| |exact Ho].
  - intros. apply valid_instrument_grow. assumption.
  - apply traverse_instrument_valid.
Qed.

(** ** The properties of the duplication *)

(** C1.  A voice that has notes gets, for each of them, a copy that starts
    later by the greatest start tick among the notes it had, plus 7680.
    The copy of the note at position [i] is at position [k + i], where [k]
    is the number of notes the voice had.  The voice of scenario B, with
    notes at 0, 480 and 960, gets copies at 8640, 9120 and 9600. *)
Theorem duplication_offset :
  (forall (voice : Voice loc) events h,
     interval_events voice = Some events -> events <> [] ->
     Forall (valid_event h) events ->
     exists voice' h' max_tick,
       duplicate_voice voice h = Ok (voice', h') /\
       is_maximum max_tick (map (fun e => h !!! start_tick e) events) /\
       forall (i : nat) e, events !! i = Some e ->
         exists e',
           voice_events voice' !! (length events + i)%nat = Some e' /\
           h' !!! start_tick e' = h !!! start_tick e + (max_tick + 7680))
  /\ (exists written,
        main scenario_B_document = Ok written /\
        map start_tick (score_events written) =
        [0; 480; 960; 8640; 9120; 9600]).
Proof.
  split.
  - intros voice events h He Hne Hv.
    destruct (duplicate_voice_spec voice events h He Hne Hv)
      as (voice' & h' & copies & m & Hrun & _ & He' & _ & Hm & Hc & _).
    exists voice', h', m. split; [exact Hrun|]. split; [exact Hm|].
    intros i e Hi. destruct (Hc i e Hi) as (c & Hci & Hview).
    exists c. split.
    + unfold voice_events. rewrite He'. simpl.
      rewrite lookup_app_r by lia.
      replace (length events + i - length events)%nat with i by lia.
      exact Hci.
    + apply (f_equal start_tick) in Hview. exact Hview.
  - eexists. split; vm_compute; reflexivity.
Qed.

Lemma duplication_offset_witness :
  exists voice' h' max_tick,
    duplicate_voice scenario_B_loaded scenario_B_heap = Ok (voice', h') /\
    is_maximum max_tick
      (map (fun e => scenario_B_heap !!! start_tick e)
         (voice_events scenario_B_loaded)) /\
    forall (i : nat) e, voice_events scenario_B_loaded !! i = Some e ->
      exists e',
        voice_events voice' !! (length (voice_events scenario_B_loaded) + i)%nat
          = Some e' /\
        h' !!! start_tick e' =
          scenario_B_heap !!! start_tick e + (max_tick + 7680).
Proof.
  apply (proj1 duplication_offset scenario_B_loaded
           (voice_events scenario_B_loaded) scenario_B_heap).
  - reflexivity.
  - discriminate.
  - repeat constructor.
Defined.

(** C2.  A pass over a voice returns unless the voice has the key and no
    notes; when it returns, a voice that had [k] notes has [2k], and the
    note at position [k + i] has the duration and the pitch of the note at
    position [i]. *)
Theorem duplication_cardinality_and_order :
  forall (voice : Voice loc) h,
    valid_voice h voice ->
    (interval_events voice <> Some [] ->
     exists voice' h', duplicate_voice voice h = Ok (voice', h')) /\
    (forall voice' h', duplicate_voice voice h = Ok (voice', h') ->
       length (voice_events voice') = (2 * length (voice_events voice))%nat /\
       forall (i : nat) e, voice_events voice !! i = Some e ->
         exists e',
           voice_events voice' !! (length (voice_events voice) + i)%nat
             = Some e' /\
           duration_ticks e' = duration_ticks e /\
           h' !!! pitch e' = h !!! pitch e).
Proof.
  intros voice h Hv. split; [apply duplicate_voice_returns|].
  intros voice' h' Hrun.
  destruct (duplicate_voice_result voice voice' h h' Hv Hrun)
    as (copies & He' & Hc).
  rewrite He'. split.
  - rewrite length_app, <- (list.Forall2_length _ _ _ Hc). lia.
  - intros i e Hi.
    destruct (Forall2_lookup_l _ _ _ _ _ Hc Hi) as (c & Hci & m & _ & Hview).
    exists c. split.
    + rewrite lookup_app_r by lia.
      replace (length (voice_events voice) + i - length (voice_events voice))%nat
        with i by lia.
      exact Hci.
    + split.
      * apply (f_equal duration_ticks) in Hview. exact Hview.
      * apply (f_equal pitch) in Hview. exact Hview.
Qed.

Lemma duplication_cardinality_and_order_witness :
  (interval_events scenario_B_loaded <> Some [] ->
   exists voice' h',
     duplicate_voice scenario_B_loaded scenario_B_heap = Ok (voice', h')) /\
  (forall voice' h',
     duplicate_voice scenario_B_loaded scenario_B_heap = Ok (voice', h') ->
     length (voice_events voice') =
       (2 * length (voice_events scenario_B_loaded))%nat /\
     forall (i : nat) e, voice_events scenario_B_loaded !! i = Some e ->
       exists e',
         voice_events voice' !! (length (voice_events scenario_B_loaded) + i)%nat
           = Some e' /\
         duration_ticks e' = duration_ticks e /\
         h' !!! pitch e' = scenario_B_heap !!! pitch e).
Proof.
  apply (duplication_cardinality_and_order scenario_B_loaded scenario_B_heap).
  repeat constructor.
Defined.

(** C3.  The pass makes no identifier: after it the identifiers of a voice
    are those it had, twice over, and the notes at positions [i] and
    [k + i] have the identifier of the original note at position [i]. *)
Theorem duplication_shares_identifiers :
  forall (voice : Voice loc) h,
    valid_voice h voice ->
    (interval_events voice <> Some [] ->
     exists voice' h', duplicate_voice voice h = Ok (voice', h')) /\
    (forall voice' h', duplicate_voice voice h = Ok (voice', h') ->
       map note_id (voice_events voice') =
         map note_id (voice_events voice) ++ map note_id (voice_events voice) /\
       forall (i : nat) e, voice_events voice !! i = Some e ->
         exists e',
           voice_events voice' !! i = Some e /\
           voice_events voice' !! (length (voice_events voice) + i)%nat
             = Some e' /\
           note_id e' = note_id e).
Proof.
  intros voice h Hv. split; [apply duplicate_voice_returns|].
  intros voice' h' Hrun.
  destruct (duplicate_voice_result voice voice' h h' Hv Hrun)
    as (copies & He' & Hc).
  rewrite He'. split.
  - rewrite map_app. f_equal.
    eapply Forall2_map_eq; [|exact Hc].
    intros e c (m & _ & Hview). apply (f_equal note_id) in Hview. exact Hview.
  - intros i e Hi.
    destruct (Forall2_lookup_l _ _ _ _ _ Hc Hi) as (c & Hci & m & _ & Hview).
    exists c. split; [|split].
    + rewrite lookup_app_l; [exact Hi|]. apply lookup_lt_Some in Hi. exact Hi.
    + rewrite lookup_app_r by lia.
      replace (length (voice_events voice) + i - length (voice_events voice))%nat
        with i by lia.
      exact Hci.
    + apply (f_equal note_id) in Hview. exact Hview.
Qed.

Lemma duplication_shares_identifiers_witness :
  (interval_events scenario_B_loaded <> Some [] ->
   exists voice' h',
     duplicate_voice scenario_B_loaded scenario_B_heap = Ok (voice', h')) /\
  (forall voice' h',
     duplicate_voice scenario_B_loaded scenario_B_heap = Ok (voice', h') ->
     map note_id (voice_events voice') =
       map note_id (voice_events scenario_B_loaded) ++
       map note_id (voice_events scenario_B_loaded) /\
     forall (i : nat) e, voice_events scenario_B_loaded !! i = Some e ->
       exists e',
         voice_events voice' !! i = Some e /\
         voice_events voice' !! (length (voice_events scenario_B_loaded) + i)%nat
           = Some e' /\
         note_id e' = note_id e).
Proof.
  apply (duplication_shares_identifiers scenario_B_loaded scenario_B_heap).
  repeat constructor.
Defined.

(** C4.  A voice that has the key [interval_events] and no notes makes the
    pass raise [ValueError], the error of [max] on an empty sequence, at
    line 20 and before anything is appended; the pass over a document
    raises it when it reaches such a voice, and it raises for no other
    reason.  The script run on the document of scenario C raises it and
    writes nothing. *)
Theorem empty_voice_raises :
  (forall (voice : Voice loc) h,
     interval_events voice = Some [] ->
     duplicate_voice voice h = Raise ValueError) /\
  (forall (voice : Voice loc) h e,
     duplicate_voice voice h = Raise e ->
     e = ValueError /\ interval_events voice = Some []) /\
  (forall (score : Score loc) v h,
     v ∈ score_voices score -> interval_events v = Some [] ->
     duplicate score h = Raise ValueError) /\
  (forall (score : Score loc) h e,
     duplicate score h = Raise e ->
     e = ValueError /\
     exists v, v ∈ score_voices score /\ interval_events v = Some []) /\
  main scenario_C_document = Raise ValueError.
Proof.
  split; [intros voice h; apply duplicate_voice_empty|].
  split; [intros voice h e; apply duplicate_voice_raise_inv|].
  split; [intros score v h; apply duplicate_raise|].
  split; [intros score h e; apply duplicate_raise_inv|].
  vm_compute. reflexivity.
Qed.

Lemma empty_voice_raises_witness :
  duplicate_voice (mkVoice "v2" (Some [])) scenario_B_heap = Raise ValueError.
Proof.
  apply (proj1 empty_voice_raises (mkVoice "v2" (Some [])) scenario_B_heap).
  reflexivity.
Defined.

(** C8.  Where one of the keys [instruments], [staves], [voices],
    [interval_events] is missing, the pass returns the node as it is and
    leaves the store as it is, at each of the four levels; the script
    writes a document without [instruments] back as it read it; inside a
    larger document the node comes out of the pass unchanged. *)
Theorem missing_keys_are_skipped :
  forall h : heap,
    (forall score : Score loc,
       instruments score = None -> duplicate score h = Ok (score, h)) /\
    (forall instrument : Instrument loc,
       staves instrument = None ->
       duplicate_instrument instrument h = Ok (instrument, h)) /\
    (forall staff : Staff loc,
       voices staff = None -> duplicate_staff staff h = Ok (staff, h)) /\
    (forall voice : Voice loc,
       interval_events voice = None ->
       duplicate_voice voice h = Ok (voice, h)) /\
    (forall document : Score Z,
       instruments document = None -> main document = Ok document) /\
    (forall (score score' : Score loc) h' insts (n : nat) instrument,
       duplicate score h = Ok (score', h') ->
       instruments score = Some insts -> insts !! n = Some instrument ->
       staves instrument = None ->
       exists insts',
         instruments score' = Some insts' /\ insts' !! n = Some instrument) /\
    (forall (instrument instrument' : Instrument loc) h' ss (n : nat) staff,
       duplicate_instrument instrument h = Ok (instrument', h') ->
       staves instrument = Some ss -> ss !! n = Some staff ->
       voices staff = None ->
       exists ss', staves instrument' = Some ss' /\ ss' !! n = Some staff) /\
    (forall (staff staff' : Staff loc) h' vs (n : nat) voice,
       duplicate_staff staff h = Ok (staff', h') ->
       voices staff = Some vs -> vs !! n = Some voice ->
       interval_events voice = None ->
       exists vs', voices staff' = Some vs' /\ vs' !! n = Some voice).
Proof.
  intros h.
  assert (Hvoice : forall (voice : Voice loc) h0,
            interval_events voice = None ->
            duplicate_voice voice h0 = Ok (voice, h0)).
  { intros voice h0. apply duplicate_voice_absent. }
  assert (Hstaff : forall (staff : Staff loc) h0,
            voices staff = None -> duplicate_staff staff h0 = Ok (staff, h0)).
  { intros staff h0 E. unfold duplicate_staff. rewrite E. reflexivity. }
  assert (Hinst : forall (instrument : Instrument loc) h0,
            staves instrument = None ->
            duplicate_instrument instrument h0 = Ok (instrument, h0)).
  { intros i h0 E. unfold duplicate_instrument. rewrite E. reflexivity. }
  split; [intros score E; unfold duplicate; rewrite E; reflexivity|].
  split; [intros i; apply Hinst|].
  split; [intros s; apply Hstaff|].
  split; [intros v; apply Hvoice|].
  split; [intros [id events insts] E; simpl in E; subst insts; reflexivity|].
  split; [|split].
  - intros score score' h' insts n i Hrun E Hn Hi.
    unfold duplicate in Hrun. rewrite E in Hrun.
    destruct (0 <? length insts)%nat.
    + apply bind_inv_Ok in Hrun as (insts' & h1 & Hmap & Hret).
      injection Hret as <- <-. exists insts'. split; [reflexivity|].
      eapply mapM_lookup_noop; [exact Hmap|exact Hn|].
      intros h0. apply Hinst, Hi.
    + injection Hrun as <- <-. exists insts. split; assumption.
  - intros i i' h' ss n s Hrun E Hn Hs.
    unfold duplicate_instrument in Hrun. rewrite E in Hrun.
    apply bind_inv_Ok in Hrun as (ss' & h1 & Hmap & Hret).
    injection Hret as <- <-. exists ss'. split; [reflexivity|].
    eapply mapM_lookup_noop; [exact Hmap|exact Hn|].
    intros h0. apply Hstaff, Hs.
  - intros s s' h' vs n v Hrun E Hn Hv.
    unfold duplicate_staff in Hrun. rewrite E in Hrun.
    apply bind_inv_Ok in Hrun as (vs' & h1 & Hmap & Hret).
    injection Hret as <- <-. exists vs'. split; [reflexivity|].
    eapply mapM_lookup_noop; [exact Hmap|exact Hn|].
    intros h0. apply Hvoice, Hv.
Qed.

Lemma missing_keys_are_skipped_witness :
  duplicate no_instruments scenario_B_heap = Ok (no_instruments, scenario_B_heap)
  /\ duplicate_instrument no_staves scenario_B_heap
       = Ok (no_staves, scenario_B_heap)
  /\ duplicate_staff no_voices scenario_B_heap = Ok (no_voices, scenario_B_heap)
  /\ duplicate_voice no_interval_events scenario_B_heap
       = Ok (no_interval_events, scenario_B_heap).
Proof.
  destruct (missing_keys_are_skipped scenario_B_heap)
    as (H1 & H2 & H3 & H4 & _).
  split; [apply H1; reflexivity|].
  split; [apply H2; reflexivity|].
  split; [apply H3; reflexivity|].
  apply H4; reflexivity.
Defined.

(** What the script prints after it has written the file, lines 32-33,
    reads the first voice of the first staff of the first instrument with
    no test of the keys. *)
Remark reported_count_needs_keys :
  reported_count no_instruments = Raise (KeyError "instruments") /\
  reported_count (mkScore "s" [] (Some ([] : list (Instrument loc))))
    = Raise IndexError /\
  reported_count scenario_B_score = Ok 3%nat.
Proof. repeat split. Qed.

Lemma valid_score_events h (score : Score loc) :
  valid_score h score -> Forall (valid_event h) (score_events score).
Proof.
  intros Hv. apply list.Forall_forall. intros e He.
  unfold score_events in He.
  apply elem_of_concat_map in He as (v & Hvin & He).
  unfold score_voices in Hvin.
  apply elem_of_concat_map in Hvin as (i & Hi & Hvin).
  unfold instrument_voices in Hvin.
  apply elem_of_concat_map in Hvin as (s & Hs & Hvin).
  unfold valid_score in Hv. rewrite list.Forall_forall in Hv.
  specialize (Hv i Hi). unfold valid_instrument in Hv.
  rewrite list.Forall_forall in Hv.
  specialize (Hv s Hs). unfold valid_staff in Hv.
  rewrite list.Forall_forall in Hv.
  specialize (Hv v Hvin). unfold valid_voice in Hv.
  rewrite list.Forall_forall in Hv. apply Hv, He.
Qed.

(** C9.  A pass over a document that reaches no voice with the key and no
    notes returns.  The document it returns has the identifiers, the names
    and the structural events of the one it was given, at every level; every
    voice has the notes it had, in the places they were, followed by their
    copies, the offset of the copies being read from the notes of that voice
    alone; and the store has only grown, so that every note the document had
    reads as it did. *)
Theorem duplication_frame :
  forall (score : Score loc) h,
    valid_score h score ->
    ((forall v, v ∈ score_voices score -> interval_events v <> Some []) ->
     exists score' h', duplicate score h = Ok (score', h')) /\
    (forall score' h', duplicate score h = Ok (score', h') ->
       score_frame h h' score score' /\
       (exists added, h' = h ++ added) /\
       (forall e, e ∈ score_events score -> view h' e = view h e)).
Proof.
  intros score h Hv. split.
  - intros Hne. destruct (duplicate score h) as [[s' h']|e] eqn:Hrun.
    + exists s', h'. reflexivity.
    + apply duplicate_raise_inv in Hrun as [_ (v & Hin & He)].
      destruct (Hne v Hin He).
  - intros score' h' Hrun.
    destruct (duplicate_frame h score score' h' Hv Hrun) as [[k ->] Hf].
    split; [exact Hf|]. split; [exists k; reflexivity|].
    intros e He. apply view_app.
    pose proof (valid_score_events h score Hv) as Hall.
    rewrite list.Forall_forall in Hall. apply Hall, He.
Qed.

Lemma duplication_frame_witness :
  ((forall v, v ∈ score_voices partial_score -> interval_events v <> Some []) ->
   exists score' h', duplicate partial_score scenario_B_heap = Ok (score', h'))
  /\ (forall score' h',
        duplicate partial_score scenario_B_heap = Ok (score', h') ->
        score_frame scenario_B_heap h' partial_score score' /\
        (exists added, h' = scenario_B_heap ++ added) /\
        (forall e, e ∈ score_events partial_score ->
           view h' e = view scenario_B_heap e)).
Proof.
  apply (duplication_frame partial_score scenario_B_heap).
  repeat constructor.
Defined.

(** ** The loops of the synthesizer *)

Section NoteLoopFacts.
Variables measure_count ticks_per_measure note_duration notes_per_measure : Z.
Variable prefix : string.
Variable pitches : list Z.

Local Abbreviation make :=
  (make_note ticks_per_measure note_duration prefix pitches).
Local Abbreviation nth :=
  (nth_note ticks_per_measure note_duration notes_per_measure prefix pitches).
Local Abbreviation n := (Z.to_nat notes_per_measure).

Lemma measure_loop_run measure : forall (k : nat) notes c,
  fold_left
    (fun '(notes, note_counter) note_idx =>
       (notes ++ [make measure note_idx note_counter], note_counter + 1))
    (Z.of_nat <$> seq 0 k) (notes, c) =
  (notes ++ ((fun i => make measure (Z.of_nat i) (c + Z.of_nat i)) <$> seq 0 k),
   c + Z.of_nat k).
Proof.
  induction k as [|k IH]; intros notes c.
  - simpl. rewrite app_nil_r, Z.add_0_r. reflexivity.
  - rewrite seq_S, !fmap_app, fold_left_app, IH. simpl.
    rewrite <- app_assoc. f_equal. lia.
Qed.

Lemma nth_note_in_measure (m i : nat) start :
  (i < n)%nat ->
  nth start (m * n + i)%nat =
  make (Z.of_nat m) (Z.of_nat i) (start + Z.of_nat (m * n) + Z.of_nat i).
Proof.
  intros Hi. unfold nth_note. cbv zeta.
  replace ((m * n + i) / n)%nat with m.
  2:{ apply (Nat.div_unique _ _ _ i); lia. }
  replace ((m * n + i) mod n)%nat with i.
  2:{ apply (Nat.mod_unique _ _ m); lia. }
  f_equal. lia.
Qed.

Lemma note_loop_run start : forall (k : nat),
  fold_left
    (fun state measure =>
       measure_loop ticks_per_measure note_duration notes_per_measure
         prefix pitches measure state)
    (Z.of_nat <$> seq 0 k) ([], start) =
  (nth start <$> seq 0 (k * n), start + Z.of_nat (k * n)).
Proof.
  induction k as [|k IH].
  - simpl. rewrite Z.add_0_r. reflexivity.
  - rewrite seq_S, fmap_app, fold_left_app, IH. simpl.
    unfold measure_loop, py_range.
    rewrite measure_loop_run. f_equal; [|lia].
    replace (n + k * n)%nat with (k * n + n)%nat by lia.
    rewrite seq_app, fmap_app. f_equal. simpl.
    replace (seq (k * n) n) with (Nat.add (k * n) <$> seq 0 n)
      by (rewrite fmap_add_seq; f_equal; lia).
    rewrite <- list_fmap_compose.
    apply list_fmap_ext. intros i' i Hi.
    apply lookup_seq in Hi as [Heq Hi]. simpl in Heq. subst i. simpl.
    symmetry. apply nth_note_in_measure. exact Hi.
Qed.

(** The list the two loops build. *)
Lemma note_loop_notes start :
  fst (note_loop measure_count ticks_per_measure note_duration
         notes_per_measure prefix pitches start) =
  nth start <$> seq 0 (Z.to_nat measure_count * n).
Proof. unfold note_loop, py_range. rewrite note_loop_run. reflexivity. Qed.

Lemma note_loop_lookup start (j : nat) e :
  fst (note_loop measure_count ticks_per_measure note_duration
         notes_per_measure prefix pitches start) !! j = Some e ->
  e = nth start j /\ (j < Z.to_nat measure_count * n)%nat.
Proof.
  rewrite note_loop_notes, list_lookup_fmap. intros H.
  destruct (seq 0 (Z.to_nat measure_count * n) !! j) as [j'|] eqn:Hj;
    [|discriminate].
  apply lookup_seq in Hj as [-> Hj]. injection H as <-.
  split; [reflexivity|exact Hj].
Qed.

Lemma note_loop_length start :
  length (fst (note_loop measure_count ticks_per_measure note_duration
                 notes_per_measure prefix pitches start)) =
  (Z.to_nat measure_count * n)%nat.
Proof. rewrite note_loop_notes, length_fmap, length_seq. reflexivity. Qed.
End NoteLoopFacts.

Lemma fixture_staff_events :
  map staff_events fixture_staves = [treble_notes; bass_notes].
Proof.
  unfold fixture_staves, generate_dense_fixture, staff_events, staff_voices,
    voice_events. cbn -[treble_notes bass_notes]. rewrite !app_nil_r.
  reflexivity.
Qed.

Lemma fixture_score_events :
  score_events generate_dense_fixture = treble_notes ++ bass_notes.
Proof.
  unfold score_events, score_voices, instrument_voices, staff_voices,
    generate_dense_fixture, voice_events. cbn -[treble_notes bass_notes].
  rewrite !app_nil_r. reflexivity.
Qed.

Lemma fixture_staves_cases (P : Staff Z -> Prop) :
  (forall staff, staff_events staff = treble_notes -> P staff) ->
  (forall staff, staff_events staff = bass_notes -> P staff) ->
  forall staff, staff ∈ fixture_staves -> P staff.
Proof.
  intros Ht Hb staff Hin.
  unfold fixture_staves, generate_dense_fixture in Hin.
  cbn -[treble_notes bass_notes] in Hin.
  apply elem_of_cons in Hin as [->|Hin].
  - apply Ht. unfold staff_events, staff_voices, voice_events.
    cbn -[treble_notes]. apply app_nil_r.
  - apply elem_of_cons in Hin as [->|Hin]; [|inversion Hin].
    apply Hb. unfold staff_events, staff_voices, voice_events.
    cbn -[bass_notes]. apply app_nil_r.
Qed.

(** In the fixture a measure is exactly eight notes long, so the [j]-th
    note of either staff starts at [480 * j]. *)
Lemma fixture_nth_tick prefix pitches start (j : nat) :
  start_tick
    (nth_note TICKS_PER_MEASURE EIGHTH_NOTE_DURATION NOTES_PER_MEASURE
       prefix pitches start j) = 480 * Z.of_nat j.
Proof.
  unfold nth_note, make_note, TICKS_PER_MEASURE, EIGHTH_NOTE_DURATION,
    NOTES_PER_MEASURE. cbn [start_tick].
  change (Z.to_nat 8) with 8%nat.
  pose proof (Nat.div_mod_eq j 8) as Hj. lia.
Qed.

Lemma fixture_notes_lookup notes (j : nat) e :
  notes = treble_notes \/ notes = bass_notes ->
  notes !! j = Some e ->
  (j < 240)%nat /\ start_tick e = 480 * Z.of_nat j /\ duration_ticks e = 480.
Proof.
  intros [->| ->] Hj; unfold treble_notes, bass_notes in Hj;
    apply note_loop_lookup in Hj as [-> Hlt];
    (split; [exact Hlt|]); (split; [apply fixture_nth_tick|reflexivity]).
Qed.

Lemma fixture_notes_length notes :
  notes = treble_notes \/ notes = bass_notes -> length notes = 240%nat.
Proof.
  intros [->| ->]; unfold treble_notes, bass_notes;
    rewrite note_loop_length; reflexivity.
Qed.

Lemma fixture_notes_at notes (j : nat) :
  notes = treble_notes \/ notes = bass_notes -> (j < 240)%nat ->
  exists e, notes !! j = Some e.
Proof.
  intros Hn Hj. apply lookup_lt_is_Some. rewrite (fixture_notes_length _ Hn).
  exact Hj.
Qed.

(** ** The properties of the synthesis *)

(** C5.  The two loops append one note for each measure and each place in
    the measure.  In the fixture each of the two staves has 240 notes; the
    first starts at 0 and the last at 29 * 3840 + 7 * 480 = 114720 and ends
    at 115200, which is the duration the script reports,
    [MEASURES * TICKS_PER_MEASURE]; no note ends later. *)
Theorem synthesis_cardinality :
  (forall M TPM DUR N prefix pitches start,
     0 <= M -> 0 <= N ->
     Z.of_nat (length (fst (note_loop M TPM DUR N prefix pitches start)))
       = M * N) /\
  length fixture_staves = 2%nat /\
  (forall staff, staff ∈ fixture_staves ->
     Z.of_nat (length (staff_events staff)) = MEASURES * NOTES_PER_MEASURE /\
     length (staff_events staff) = 240%nat /\
     option_map start_tick (head (staff_events staff)) = Some 0 /\
     option_map start_tick (list.last (staff_events staff))
       = Some (29 * 3840 + 7 * 480) /\
     29 * 3840 + 7 * 480 = 114720 /\
     option_map (fun e => start_tick e + duration_ticks e)
       (list.last (staff_events staff)) = Some reported_duration /\
     Forall (fun e => 0 <= start_tick e /\
                      start_tick e + duration_ticks e <= reported_duration)
       (staff_events staff)) /\
  reported_duration = MEASURES * TICKS_PER_MEASURE /\
  reported_duration = 115200.
Proof.
  split.
  { intros M TPM DUR N prefix pitches start HM HN.
    rewrite note_loop_length. lia. }
  split; [reflexivity|].
  split; [|split; reflexivity].
  assert (H : forall notes, notes = treble_notes \/ notes = bass_notes ->
    Z.of_nat (length notes) = MEASURES * NOTES_PER_MEASURE /\
    length notes = 240%nat /\
    option_map start_tick (head notes) = Some 0 /\
    option_map start_tick (list.last notes) = Some (29 * 3840 + 7 * 480) /\
    29 * 3840 + 7 * 480 = 114720 /\
    option_map (fun e => start_tick e + duration_ticks e) (list.last notes)
      = Some reported_duration /\
    Forall (fun e => 0 <= start_tick e /\
                     start_tick e + duration_ticks e <= reported_duration)
      notes).
  { intros notes Hn.
    pose proof (fixture_notes_length notes Hn) as Hlen.
    destruct (fixture_notes_at notes 0 Hn ltac:(lia)) as [e0 H0].
    destruct (fixture_notes_at notes 239 Hn ltac:(lia)) as [e1 H1].
    destruct (fixture_notes_lookup notes 0 e0 Hn H0) as (_ & Ht0 & _).
    destruct (fixture_notes_lookup notes 239 e1 Hn H1) as (_ & Ht1 & Hd1).
    split; [rewrite Hlen; reflexivity|]. split; [exact Hlen|].
    split; [rewrite head_lookup, H0; simpl; f_equal; exact Ht0|].
    rewrite last_lookup, Hlen. change (Init.Nat.pred 240) with 239%nat.
    rewrite H1. simpl.
    split; [f_equal; rewrite Ht1; reflexivity|].
    split; [reflexivity|].
    split; [f_equal; rewrite Ht1, Hd1; reflexivity|].
    apply Forall_lookup. intros j e Hj.
    destruct (fixture_notes_lookup notes j e Hn Hj) as (Hlt & Ht & Hd).
    rewrite Ht, Hd. unfold reported_duration, MEASURES, TICKS_PER_MEASURE.
    lia. }
  apply fixture_staves_cases; intros staff ->; apply H; [left|right];
    reflexivity.
Qed.

Lemma synthesis_cardinality_witness :
  Z.of_nat (length (fst (note_loop 30 3840 480 8 "tn" treble_pitches 10)))
    = 30 * 8.
Proof.
  apply (proj1 synthesis_cardinality 30 3840 480 8 "tn" treble_pitches 10); lia.
Defined.

Lemma succ_div_mod (j n : nat) :
  (0 < n)%nat ->
  ((S j / n = j / n)%nat /\ (S j mod n = S (j mod n))%nat) \/
  ((S j / n = S (j / n))%nat /\ (S j mod n = 0)%nat /\ (j mod n = n - 1)%nat).
Proof.
  intros Hn. pose proof (Nat.div_mod_eq j n) as Hj.
  pose proof (Nat.mod_upper_bound j n ltac:(lia)) as Hlt.
  destruct (decide (S (j mod n) < n)%nat) as [Hin|Hout].
  - left. split.
    + symmetry. apply (Nat.div_unique _ _ _ (S (j mod n))); lia.
    + symmetry. apply (Nat.mod_unique _ _ (j / n)); lia.
  - right. split; [|split; [|lia]].
    + symmetry. apply (Nat.div_unique _ _ _ 0); lia.
    + symmetry. apply (Nat.mod_unique _ _ (S (j / n))); lia.
Qed.

(** C6.  Two notes that follow one another in a list the loops build are
    [note_duration] apart inside a measure and
    [ticks_per_measure - (notes_per_measure - 1) * note_duration] apart
    across a bar line.  With the constants of the script both are 480: in
    each staff of the fixture every note starts 480 ticks after the one
    before it, and a note that comes later in the list starts later. *)
Theorem synthesis_tick_spacing :
  (forall M TPM DUR N prefix pitches start (j : nat) a b,
     fst (note_loop M TPM DUR N prefix pitches start) !! j = Some a ->
     fst (note_loop M TPM DUR N prefix pitches start) !! S j = Some b ->
     start_tick b - start_tick a = DUR \/
     start_tick b - start_tick a = TPM - (N - 1) * DUR) /\
  EIGHTH_NOTE_DURATION = 480 /\
  TICKS_PER_MEASURE - (NOTES_PER_MEASURE - 1) * EIGHTH_NOTE_DURATION = 480 /\
  (forall staff, staff ∈ fixture_staves ->
     forall (j : nat) a b,
       staff_events staff !! j = Some a ->
       staff_events staff !! S j = Some b ->
       start_tick b - start_tick a = 480 /\ start_tick a < start_tick b) /\
  (forall staff, staff ∈ fixture_staves ->
     forall (i j : nat) a b,
       (i < j)%nat ->
       staff_events staff !! i = Some a ->
       staff_events staff !! j = Some b ->
       start_tick a < start_tick b).
Proof.
  split.
  { intros M TPM DUR N prefix pitches start j a b Ha Hb.
    apply note_loop_lookup in Ha as [-> _].
    apply note_loop_lookup in Hb as [-> Hlt].
    assert (Hn : (0 < Z.to_nat N)%nat) by lia.
    assert (HN : Z.of_nat (Z.to_nat N) = N) by lia.
    unfold nth_note, make_note. cbn [start_tick].
    destruct (succ_div_mod j (Z.to_nat N) Hn)
      as [[-> ->]|(-> & -> & Hlast)].
    - left. lia.
    - right. rewrite Hlast. rewrite Nat2Z.inj_sub by lia. rewrite HN.
      rewrite Nat2Z.inj_succ. change (Z.of_nat 0) with 0.
      change (Z.of_nat 1) with 1. ring. }
  split; [reflexivity|]. split; [reflexivity|].
  assert (H : forall notes, notes = treble_notes \/ notes = bass_notes ->
            forall (i j : nat) a b, (i < j)%nat ->
              notes !! i = Some a -> notes !! j = Some b ->
              start_tick b - start_tick a = 480 * (Z.of_nat j - Z.of_nat i)).
  { intros notes Hn i j a b Hij Ha Hb.
    destruct (fixture_notes_lookup notes i a Hn Ha) as (_ & -> & _).
    destruct (fixture_notes_lookup notes j b Hn Hb) as (_ & -> & _).
    lia. }
  split.
  - apply (fixture_staves_cases
             (fun staff => forall (j : nat) a b,
                staff_events staff !! j = Some a ->
                staff_events staff !! S j = Some b ->
                start_tick b - start_tick a = 480 /\
                start_tick a < start_tick b));
      intros staff -> j a b Ha Hb.
    + pose proof (H treble_notes ltac:(left; reflexivity) j (S j) a b
                    ltac:(lia) Ha Hb). lia.
    + pose proof (H bass_notes ltac:(right; reflexivity) j (S j) a b
                    ltac:(lia) Ha Hb). lia.
  - apply (fixture_staves_cases
             (fun staff => forall (i j : nat) a b, (i < j)%nat ->
                staff_events staff !! i = Some a ->
                staff_events staff !! j = Some b ->
                start_tick a < start_tick b));
      intros staff -> i j a b Hij Ha Hb.
    + pose proof (H treble_notes ltac:(left; reflexivity) i j a b Hij Ha Hb).
      lia.
    + pose proof (H bass_notes ltac:(right; reflexivity) i j a b Hij Ha Hb).
      lia.
Qed.

Lemma synthesis_tick_spacing_witness :
  exists a b,
    treble_notes !! 7%nat = Some a /\ treble_notes !! 8%nat = Some b /\
    (start_tick b - start_tick a = 480 \/
     start_tick b - start_tick a = 3840 - (8 - 1) * 480).
Proof.
  eexists _, _.
  split; [vm_compute; reflexivity|]. split; [vm_compute; reflexivity|].
  apply (proj1 synthesis_tick_spacing 30 3840 480 8 "tn" treble_pitches 10
           7%nat); vm_compute; reflexivity.
Defined.

(** C10.  The two staves of the fixture have 240 notes each, and the
    [j]-th note of the bass staff starts with the [j]-th note of the treble
    staff, lasts 480 ticks like it, and sounds twelve semitones lower. *)
Theorem staves_are_aligned :
  map staff_events fixture_staves = [treble_notes; bass_notes] /\
  length treble_notes = 240%nat /\
  length bass_notes = 240%nat /\
  forall (j : nat) t b,
    treble_notes !! j = Some t -> bass_notes !! j = Some b ->
    start_tick b = start_tick t /\
    duration_ticks t = 480 /\ duration_ticks b = 480 /\
    pitch b = pitch t - 12.
Proof.
  split; [apply fixture_staff_events|].
  split; [apply fixture_notes_length; left; reflexivity|].
  split; [apply fixture_notes_length; right; reflexivity|].
  intros j t b Ht Hb.
  destruct (fixture_notes_lookup treble_notes j t ltac:(left; reflexivity) Ht)
    as (_ & Htt & Htd).
  destruct (fixture_notes_lookup bass_notes j b ltac:(right; reflexivity) Hb)
    as (_ & Hbt & Hbd).
  split; [rewrite Htt, Hbt; reflexivity|].
  split; [exact Htd|]. split; [exact Hbd|].
  unfold treble_notes in Ht. unfold bass_notes in Hb.
  apply note_loop_lookup in Ht as [-> _].
  apply note_loop_lookup in Hb as [-> _].
  unfold nth_note, make_note, NOTES_PER_MEASURE. cbn [pitch].
  change (Z.to_nat 8) with 8%nat.
  pose proof (Nat.mod_upper_bound j 8 ltac:(lia)) as Hd.
  destruct (j mod 8)%nat as [|[|[|[|[|[|[|[|d]]]]]]]]; try reflexivity. lia.
Qed.

Lemma staves_are_aligned_witness :
  exists t b,
    treble_notes !! 9%nat = Some t /\ bass_notes !! 9%nat = Some b /\
    start_tick b = start_tick t /\
    duration_ticks t = 480 /\ duration_ticks b = 480 /\
    pitch b = pitch t - 12.
Proof.
  eexists _, _.
  split; [vm_compute; reflexivity|]. split; [vm_compute; reflexivity|].
  apply (proj2 (proj2 (proj2 staves_are_aligned)) 9%nat);
    vm_compute; reflexivity.
Defined.

(** ** Identifiers *)

Lemma length_append (a b : string) :
  String.length (a +:+ b) = (String.length a + String.length b)%nat.
Proof. induction a as [|c a IH]; simpl; [|rewrite IH]; reflexivity. Qed.

Lemma append_inj_r (s : string) : forall a b, a +:+ s = b +:+ s -> a = b.
Proof.
  induction a as [|c a IH]; intros b H.
  - destruct b as [|c' b]; [reflexivity|].
    apply (f_equal String.length) in H.
    rewrite !length_append in H. cbn [String.length] in H. lia.
  - destruct b as [|c' b].
    + apply (f_equal String.length) in H.
      rewrite !length_append in H. cbn [String.length] in H. lia.
    + simpl in H. injection H as -> H. f_equal. apply IH, H.
Qed.

Lemma read_leading_zero (x : string) :
  option_map N.of_uint (NilEmpty.uint_of_string ("0" +:+ x)) =
  option_map N.of_uint (NilEmpty.uint_of_string x).
Proof.
  change ("0" +:+ x) with (String (Ascii.ascii_of_nat 48) x).
  cbn [NilEmpty.uint_of_string].
  destruct (NilEmpty.uint_of_string x) as [d|]; reflexivity.
Qed.

(** Reading a zero-filled number back gives the number. *)
Lemma zero_fill_read width d :
  option_map N.of_uint
    (NilEmpty.uint_of_string (zero_fill width (NilEmpty.string_of_uint d)))
  = Some (N.of_uint d).
Proof.
  unfold zero_fill.
  generalize (width - String.length (NilEmpty.string_of_uint d))%nat as k.
  induction k as [|k IH].
  - change (zeros 0 +:+ ?x) with x. rewrite NilEmpty.usu. reflexivity.
  - change (zeros (S k) +:+ ?x) with ("0" +:+ (zeros k +:+ x)).
    rewrite read_leading_zero. exact IH.
Qed.

Lemma format_04d_inj a b :
  0 <= a -> 0 <= b -> format_04d a = format_04d b -> a = b.
Proof.
  intros Ha Hb. unfold format_04d.
  destruct (Z.ltb_spec a 0) as [?|_]; [lia|].
  destruct (Z.ltb_spec b 0) as [?|_]; [lia|].
  unfold decimal. intros H.
  apply (f_equal (fun s => option_map N.of_uint (NilEmpty.uint_of_string s)))
    in H.
  rewrite !zero_fill_read, !Unsigned.of_to in H.
  injection H as H. apply Z2N.inj; assumption.
Qed.

Section Identifiers.
Variables measure_count ticks_per_measure note_duration notes_per_measure : Z.
Variable pitches : list Z.

Lemma note_loop_id_lookup prefix start (j : nat) e :
  fst (note_loop measure_count ticks_per_measure note_duration
         notes_per_measure prefix pitches start) !! j = Some e ->
  note_id e = prefix +:+ format_04d (start + Z.of_nat j) +:+ id_suffix.
Proof. intros H. apply note_loop_lookup in H as [-> _]. reflexivity. Qed.

(** One loop gives no identifier twice. *)
Lemma note_loop_ids_NoDup prefix start :
  0 <= start ->
  NoDup (map note_id
           (fst (note_loop measure_count ticks_per_measure note_duration
                   notes_per_measure prefix pitches start))).
Proof.
  intros Hs. apply NoDup_alt. intros i j x Hi Hj.
  change (map note_id ?l) with (note_id <$> l) in Hi, Hj.
  rewrite list_lookup_fmap in Hi, Hj.
  destruct (_ !! i) as [a|] eqn:Ha; [|discriminate].
  destruct (_ !! j) as [b|] eqn:Hb; [|discriminate].
  injection Hi as <-. injection Hj as Hj.
  rewrite (note_loop_id_lookup _ _ _ _ Ha),
    (note_loop_id_lookup _ _ _ _ Hb) in Hj.
  apply String.app_inj, append_inj_r, format_04d_inj in Hj; lia.
Qed.

End Identifiers.

(** Loops whose prefixes begin with different characters share no
    identifier. *)
Lemma note_loop_ids_disjoint M1 T1 D1 N1 c1 r1 p1 start1
    M2 T2 D2 N2 c2 r2 p2 start2 x :
  c1 <> c2 ->
  x ∈ map note_id (fst (note_loop M1 T1 D1 N1 (String c1 r1) p1 start1)) ->
  x ∉ map note_id (fst (note_loop M2 T2 D2 N2 (String c2 r2) p2 start2)).
Proof.
  intros Hc H1 H2.
  apply list_elem_of_lookup in H1 as [i Hi].
  apply list_elem_of_lookup in H2 as [j Hj].
  change (map note_id ?l) with (note_id <$> l) in Hi, Hj.
  rewrite list_lookup_fmap in Hi, Hj.
  destruct (_ !! i) as [a|] eqn:Ha; [|discriminate].
  destruct (_ !! j) as [b|] eqn:Hb; [|discriminate].
  injection Hi as <-. injection Hj as Hj.
  rewrite (note_loop_id_lookup _ _ _ _ _ _ _ _ _ Ha),
    (note_loop_id_lookup _ _ _ _ _ _ _ _ _ Hb) in Hj.
  simpl in Hj. injection Hj as Hj _. congruence.
Qed.

(** C7.  No two notes of the fixture have the same identifier.  The note in
    [j]-th place of the treble staff is numbered [10 + j] after the prefix
    [tn], the one of the bass staff [10000 + j] after [bn]; a loop that
    starts from a counter that is not negative gives no identifier twice,
    and the two prefixes keep the staves apart. *)
Theorem synthesis_identifiers_unique :
  NoDup (map note_id (score_events generate_dense_fixture)) /\
  (forall M TPM DUR N prefix pitches start,
     0 <= start ->
     NoDup (map note_id (fst (note_loop M TPM DUR N prefix pitches start)))) /\
  (forall (j : nat) e,
     treble_notes !! j = Some e ->
     note_id e = "tn" +:+ format_04d (10 + Z.of_nat j) +:+ id_suffix) /\
  (forall (j : nat) e,
     bass_notes !! j = Some e ->
     note_id e = "bn" +:+ format_04d (10000 + Z.of_nat j) +:+ id_suffix) /\
  (forall x, x ∈ map note_id treble_notes -> x ∉ map note_id bass_notes) /\
  option_map note_id (head treble_notes)
    = Some "tn0010-8400-e29b-41d4-a716-446655440000" /\
  option_map note_id (head bass_notes)
    = Some "bn10000-8400-e29b-41d4-a716-446655440000".
Proof.
  assert (Hdis : forall x,
            x ∈ map note_id treble_notes -> x ∉ map note_id bass_notes).
  { intros x. unfold treble_notes, bass_notes.
    apply note_loop_ids_disjoint. discriminate. }
  split.
  { rewrite fixture_score_events, map_app. apply list.NoDup_app.
    split; [apply note_loop_ids_NoDup; lia|].
    split; [exact Hdis|apply note_loop_ids_NoDup; lia]. }
  split; [intros; apply note_loop_ids_NoDup; assumption|].
  split; [intros j e; apply note_loop_id_lookup|].
  split; [intros j e; apply note_loop_id_lookup|].
  split; [exact Hdis|].
  split; vm_compute; reflexivity.
Qed.

Lemma synthesis_identifiers_unique_witness :
  NoDup (map note_id (fst (note_loop 30 3840 480 8 "tn" treble_pitches 10))).
Proof.
  apply (proj1 (proj2 synthesis_identifiers_unique)
           30 3840 480 8 "tn" treble_pitches 10).
  lia.
Defined.

(** ** The script on documents *)

Lemma mapM_pure {A B} (g : A -> M B) (p : A -> B) h :
  forall xs, (forall x, x ∈ xs -> g x h = Ok (p x, h)) ->
  mapM g xs h = Ok (map p xs, h).
Proof.
  induction xs as [|x xs IH]; intros Hg; simpl; [reflexivity|].
  rewrite (bind_Ok _ _ _ _ _ (Hg x ltac:(left))).
  rewrite (bind_Ok _ _ _ _ _ (IH ltac:(intros; apply Hg; right; assumption))).
  reflexivity.
Qed.

Lemma traverse_option_pure {A B} (g : A -> M B) (p : A -> B) h o :
  (forall x, x ∈ default [] o -> g x h = Ok (p x, h)) ->
  traverse_option g o h = Ok (option_map (map p) o, h).
Proof.
  destruct o as [xs|]; simpl; intros Hg; [|reflexivity].
  rewrite (bind_Ok _ _ _ _ _ (mapM_pure g p h xs Hg)). reflexivity.
Qed.

(** [json.dump] writes the document as it reads in the store and leaves
    the store alone. *)
Lemma json_dump_read s h : json_dump s h = Ok (read_score h s, h).
Proof.
  unfold json_dump, traverse_score.
  erewrite bind_Ok; [reflexivity|].
  apply traverse_option_pure. intros i _. unfold traverse_instrument.
  erewrite bind_Ok; [reflexivity|].
  apply traverse_option_pure. intros st _. unfold traverse_staff.
  erewrite bind_Ok; [reflexivity|].
  apply traverse_option_pure. intros v _. unfold traverse_voice.
  erewrite bind_Ok; [reflexivity|].
  apply traverse_option_pure. intros e _. apply json_dumps_view.
Qed.

Section LoadRel.
Context {X Y : Type} (g : X -> M Y) (R : heap -> X -> Y -> Prop).
Hypothesis R_grow : forall h k x y, R h x y -> R (h ++ k) x y.
Hypothesis g_step :
  forall h x, exists y k, g x h = Ok (y, h ++ k) /\ R (h ++ k) x y.

Lemma mapM_load : forall xs h,
  exists ys k, mapM g xs h = Ok (ys, h ++ k) /\ Forall2 (R (h ++ k)) xs ys.
Proof.
  induction xs as [|x xs IH]; intros h.
  - exists [], []. rewrite app_nil_r. split; [reflexivity|constructor].
  - destruct (g_step h x) as (y & k1 & Hy & Hr).
    destruct (IH (h ++ k1)) as (ys & k2 & Hys & Hrs).
    exists (y :: ys), (k1 ++ k2). simpl.
    rewrite (bind_Ok _ _ _ _ _ Hy), (bind_Ok _ _ _ _ _ Hys).
    rewrite <- app_assoc in Hrs |- *. split; [rewrite app_assoc; reflexivity|].
    constructor; [|exact Hrs].
    rewrite app_assoc. apply R_grow, Hr.
Qed.

Lemma traverse_option_load o h :
  exists o' k,
    traverse_option g o h = Ok (o', h ++ k) /\ children (R (h ++ k)) o o'.
Proof.
  destruct o as [xs|]; simpl.
  - destruct (mapM_load xs h) as (ys & k & Hys & Hrs).
    exists (Some ys), k. rewrite (bind_Ok _ _ _ _ _ Hys).
    split; [reflexivity|constructor; exact Hrs].
  - exists None, []. rewrite app_nil_r. split; [reflexivity|constructor].
Qed.
End LoadRel.

Lemma children_read {X Y} (P : Y -> Prop) (f : Y -> X) o o' :
  children (fun a b => P b /\ f b = a) o o' ->
  Forall P (default [] o') /\ option_map (map f) o' = o.
Proof.
  intros [xs ys Hxy|]; simpl; [|split; [constructor|reflexivity]].
  induction Hxy as [|x y xs ys [Hp Hf] _ [IHp IHf]]; simpl.
  - split; [constructor|reflexivity].
  - split; [constructor; assumption|].
    injection IHf as IHf. rewrite Hf, IHf. reflexivity.
Qed.

Lemma option_map_ext_Forall {X Y} (f g : X -> Y) o :
  Forall (fun x => f x = g x) (default [] o) ->
  option_map (map f) o = option_map (map g) o.
Proof.
  destruct o as [xs|]; simpl; [|reflexivity]. intros H. f_equal.
  induction H as [|x xs Hx _ IH]; simpl; [reflexivity|].
  rewrite Hx, IH. reflexivity.
Qed.

Lemma read_voice_app h k v :
  valid_voice h v -> read_voice (h ++ k) v = read_voice h v.
Proof.
  intros Hv. unfold read_voice. f_equal. apply option_map_ext_Forall.
  eapply List.Forall_impl; [|exact Hv]. intros e. apply view_app.
Qed.

Lemma read_staff_app h k s :
  valid_staff h s -> read_staff (h ++ k) s = read_staff h s.
Proof.
  intros Hv. unfold read_staff. f_equal. apply option_map_ext_Forall.
  eapply List.Forall_impl; [|exact Hv]. intros v. apply read_voice_app.
Qed.

Lemma read_instrument_app h k i :
  valid_instrument h i -> read_instrument (h ++ k) i = read_instrument h i.
Proof.
  intros Hv. unfold read_instrument. f_equal. apply option_map_ext_Forall.
  eapply List.Forall_impl; [|exact Hv]. intros s. apply read_staff_app.
Qed.

Lemma read_score_app h k s :
  valid_score h s -> read_score (h ++ k) s = read_score h s.
Proof.
  intros Hv. unfold read_score. f_equal. apply option_map_ext_Forall.
  eapply List.Forall_impl; [|exact Hv]. intros i. apply read_instrument_app.
Qed.

Lemma json_loads_read h e :
  exists e' k,
    json_loads e h = Ok (e', h ++ k) /\
    (valid_event (h ++ k) e' /\ view (h ++ k) e' = e).
Proof.
  eexists _, _. split; [apply json_loads_new|]. split.
  - unfold valid_event. cbn [start_tick pitch]. rewrite length_app. simpl. lia.
  - unfold view. cbn [note_id start_tick duration_ticks pitch].
    rewrite (list_lookup_total_middle h [pitch e] (start_tick e) (length h))
      by reflexivity.
    rewrite (lookup_total_app_r h) by lia.
    replace (S (length h) - length h)%nat with 1%nat by lia.
    destruct e; reflexivity.
Qed.

Lemma traverse_voice_read h v :
  exists v' k,
    traverse_voice json_loads v h = Ok (v', h ++ k) /\
    (valid_voice (h ++ k) v' /\ read_voice (h ++ k) v' = v).
Proof.
  destruct (traverse_option_load json_loads
              (fun h a b => valid_event h b /\ view h b = a)
              ltac:(intros ? ? ? ? [Hv <-]; split;
                      [apply valid_event_app|apply view_app]; exact Hv)
              json_loads_read (interval_events v) h) as (o' & k & Ho & Hc).
  exists (mkVoice (voice_id v) o'), k. unfold traverse_voice.
  rewrite (bind_Ok _ _ _ _ _ Ho). split; [reflexivity|].
  apply children_read in Hc as [Hp Hf]. split; [exact Hp|].
  unfold read_voice. cbn [voice_id interval_events]. rewrite Hf.
  destruct v; reflexivity.
Qed.

Lemma traverse_staff_read h s :
  exists s' k,
    traverse_staff json_loads s h = Ok (s', h ++ k) /\
    (valid_staff (h ++ k) s' /\ read_staff (h ++ k) s' = s).
Proof.
  destruct (traverse_option_load (traverse_voice json_loads)
              (fun h a b => valid_voice h b /\ read_voice h b = a)
              ltac:(intros ? ? ? ? [Hv <-]; split;
                      [apply valid_voice_grow|apply read_voice_app]; exact Hv)
              (fun h x => traverse_voice_read h x) (voices s) h)
    as (o' & k & Ho & Hc).
  exists (mkStaff (staff_id s) (staff_structural_events s) o'), k.
  unfold traverse_staff.
  rewrite (bind_Ok _ _ _ _ _ Ho). split; [reflexivity|].
  apply children_read in Hc as [Hp Hf]. split; [exact Hp|].
  unfold read_staff. cbn [staff_id staff_structural_events voices].
  rewrite Hf. destruct s; reflexivity.
Qed.

Lemma traverse_instrument_read h i :
  exists i' k,
    traverse_instrument json_loads i h = Ok (i', h ++ k) /\
    (valid_instrument (h ++ k) i' /\ read_instrument (h ++ k) i' = i).
Proof.
  destruct (traverse_option_load (traverse_staff json_loads)
              (fun h a b => valid_staff h b /\ read_staff h b = a)
              ltac:(intros ? ? ? ? [Hv <-]; split;
                      [apply valid_staff_grow|apply read_staff_app]; exact Hv)
              (fun h x => traverse_staff_read h x) (staves i) h)
    as (o' & k & Ho & Hc).
  exists (mkInstrument (instrument_id i) (name i) (instrument_type i) o'), k.
  unfold traverse_instrument.
  rewrite (bind_Ok _ _ _ _ _ Ho). split; [reflexivity|].
  apply children_read in Hc as [Hp Hf]. split; [exact Hp|].
  unfold read_instrument.
  cbn [instrument_id name instrument_type staves].
  rewrite Hf. destruct i; reflexivity.
Qed.

(** [json.load] returns, and what it builds reads as the document. *)
Lemma json_load_read document h :
  exists score k,
    json_load document h = Ok (score, h ++ k) /\
    valid_score (h ++ k) score /\ read_score (h ++ k) score = document.
Proof.
  destruct (traverse_option_load (traverse_instrument json_loads)
              (fun h a b => valid_instrument h b /\ read_instrument h b = a)
              ltac:(intros ? ? ? ? [Hv <-]; split;
                      [apply valid_instrument_grow|apply read_instrument_app];
                      exact Hv)
              (fun h x => traverse_instrument_read h x)
              (instruments document) h)
    as (o' & k & Ho & Hc).
  exists (mkScore (score_id document) (global_structural_events document) o'), k.
  unfold json_load, traverse_score.
  rewrite (bind_Ok _ _ _ _ _ Ho). split; [reflexivity|].
  apply children_read in Hc as [Hp Hf]. split; [exact Hp|].
  unfold read_score. cbn [score_id global_structural_events instruments].
  rewrite Hf. destruct document; reflexivity.
Qed.

Lemma children_map {X Y X' Y' : Type} (P : X -> Prop) (R : X -> Y -> Prop)
    (R' : X' -> Y' -> Prop) (f : X -> X') (f' : Y -> Y') o o' :
  Forall P (default [] o) ->
  (forall x y, P x -> R x y -> R' (f x) (f' y)) ->
  children R o o' ->
  children R' (option_map (map f) o) (option_map (map f') o').
Proof.
  intros HP Himp Hc. destruct Hc as [xs ys Hxy|]; simpl; constructor.
  simpl in HP. induction Hxy as [|x y xs ys Hx Hxy IH]; simpl; constructor.
  - inversion HP; subst. apply Himp; assumption.
  - inversion HP; subst. apply IH; assumption.
Qed.

Lemma copies_read (h h' : heap) offset (events copies : list (IntervalEvent loc)) :
  Forall2 (fun e c => view h' c = shift offset (view h e)) events copies ->
  map (view h') copies = map (shift offset) (map (view h) events).
Proof.
  induction 1 as [|e c es cs Hec _ IH]; simpl; [reflexivity|].
  rewrite Hec, IH. reflexivity.
Qed.

Lemma voice_frame_written h k v v' :
  valid_voice h v -> voice_frame h (h ++ k) v v' ->
  written_voice (read_voice h v) (read_voice (h ++ k) v').
Proof.
  intros Hv (Hid & _ & Hev). split; [exact Hid|].
  unfold read_voice. cbn [interval_events].
  unfold valid_voice, voice_events in Hv.
  destruct (interval_events v) as [events|]; simpl in Hv |- *.
  - destruct Hev as (copies & m & -> & Hm & Hc). exists m. split.
    + rewrite map_map. exact Hm.
    + simpl. f_equal. rewrite map_app. f_equal.
      * clear - Hv. induction Hv as [|e es He _ IH]; simpl; [reflexivity|].
        rewrite (view_app _ _ _ He), IH. reflexivity.
      * apply copies_read, Hc.
  - rewrite Hev. reflexivity.
Qed.

Lemma staff_frame_written h k s s' :
  valid_staff h s -> staff_frame h (h ++ k) s s' ->
  written_staff (read_staff h s) (read_staff (h ++ k) s').
Proof.
  intros Hv (Hid & Hev & Hc). split; [exact Hid|]. split; [exact Hev|].
  unfold read_staff. cbn [voices].
  eapply children_map; [exact Hv| |exact Hc].
  intros v v'. apply voice_frame_written.
Qed.

Lemma instrument_frame_written h k i i' :
  valid_instrument h i -> instrument_frame h (h ++ k) i i' ->
  written_instrument (read_instrument h i) (read_instrument (h ++ k) i').
Proof.
  intros Hv (Hid & Hn & Ht & Hc).
  split; [exact Hid|]. split; [exact Hn|]. split; [exact Ht|].
  unfold read_instrument. cbn [staves].
  eapply children_map; [exact Hv| |exact Hc].
  intros s s'. apply staff_frame_written.
Qed.

Lemma score_frame_written h k s s' :
  valid_score h s -> score_frame h (h ++ k) s s' ->
  written_score (read_score h s) (read_score (h ++ k) s').
Proof.
  intros Hv (Hid & Hev & Hc). split; [exact Hid|]. split; [exact Hev|].
  unfold read_score. cbn [instruments].
  eapply children_map; [exact Hv| |exact Hc].
  intros i i'. apply instrument_frame_written.
Qed.

(** The script is the pass between a load and a dump. *)
Lemma main_run document :
  exists score h,
    valid_score h score /\ read_score h score = document /\
    main document =
      match duplicate score h with
      | Ok (score', h') => Ok (read_score h' score')
      | Raise e => Raise e
      end.
Proof.
  destruct (json_load_read document []) as (score & k & Hload & Hv & Hr).
  simpl in Hload, Hv, Hr. exists score, k.
  split; [exact Hv|]. split; [exact Hr|].
  unfold main. rewrite (bind_Ok _ _ _ _ _ Hload).
  unfold bind at 1. destruct (duplicate score k) as [[s' h']|e]; [|reflexivity].
  rewrite json_dump_read. reflexivity.
Qed.

Lemma main_written document written :
  main document = Ok written -> written_score document written.
Proof.
  destruct (main_run document) as (score & h & Hv & <- & ->).
  destruct (duplicate score h) as [[s' h']|e] eqn:Hrun; [|discriminate].
  intros [= <-].
  destruct (duplicate_frame h score s' h' Hv Hrun) as [[k ->] Hf].
  apply score_frame_written; assumption.
Qed.

(** ** Voices of the document read and of the document written *)

Lemma children_Forall2 {X Y} (R : X -> Y -> Prop) o o' :
  children R o o' -> Forall2 R (default [] o) (default [] o').
Proof. intros [xs ys H|]; simpl; [exact H|constructor]. Qed.

Lemma Forall2_concat_map {X Y X' Y'} (R : X -> Y -> Prop)
    (R' : X' -> Y' -> Prop) (f : X -> list X') (g : Y -> list Y') xs ys :
  (forall x y, R x y -> Forall2 R' (f x) (g y)) ->
  Forall2 R xs ys ->
  Forall2 R' (concat (map f xs)) (concat (map g ys)).
Proof.
  intros Himp. induction 1 as [|x y xs ys Hxy _ IH]; simpl; [constructor|].
  apply Forall2_app; [apply Himp, Hxy|exact IH].
Qed.

Lemma Forall2_diag {X} (R : X -> X -> Prop) l :
  Forall2 R l l -> Forall (fun x => R x x) l.
Proof.
  intros H. apply Forall_lookup. intros i x Hi.
  eapply Forall2_lookup_lr; eassumption.
Qed.

Lemma written_staff_voices s s' :
  written_staff s s' -> Forall2 written_voice (staff_voices s) (staff_voices s').
Proof. intros (_ & _ & Hc). apply children_Forall2, Hc. Qed.

Lemma written_instrument_voices i i' :
  written_instrument i i' ->
  Forall2 written_voice (instrument_voices i) (instrument_voices i').
Proof.
  intros (_ & _ & _ & Hc). unfold instrument_voices.
  eapply Forall2_concat_map; [|apply children_Forall2, Hc].
  apply written_staff_voices.
Qed.

Lemma written_score_voices d w :
  written_score d w -> Forall2 written_voice (score_voices d) (score_voices w).
Proof.
  intros (_ & _ & Hc). unfold score_voices.
  eapply Forall2_concat_map; [|apply children_Forall2, Hc].
  apply written_instrument_voices.
Qed.

Lemma is_maximum_nonempty m xs : is_maximum m xs -> xs <> [].
Proof. intros [Hin _] ->. inversion Hin. Qed.

(** The notes of a voice written, from the notes of the voice read. *)
Lemma written_voice_events v v' :
  written_voice v v' ->
  exists offset,
    voice_events v' = voice_events v ++ map (shift offset) (voice_events v) /\
    (voice_events v <> [] ->
     exists m, is_maximum m (voice_ticks v) /\ offset = m + 7680) /\
    (interval_events v' = Some [] -> False) /\
    (interval_events v = None <-> interval_events v' = None).
Proof.
  intros [_ Hev]. unfold voice_ticks, voice_events.
  destruct (interval_events v) as [events|].
  - destruct Hev as (m & Hm & ->). exists (m + 7680). simpl.
    split; [reflexivity|]. split; [intros _; exists m; split; trivial|].
    split; [|split; discriminate].
    intros [= H]. apply app_eq_nil in H as [-> _].
    apply is_maximum_nonempty in Hm. apply Hm. reflexivity.
  - rewrite Hev. exists 0. simpl. split; [reflexivity|].
    split; [congruence|]. split; [discriminate|tauto].
Qed.

Lemma main_raise document e :
  main document = Raise e <->
  e = ValueError /\
  exists v, v ∈ score_voices document /\ interval_events v = Some [].
Proof.
  destruct (main_run document) as (score & h & Hv & <- & ->).
  assert (Hvoices : forall s : Score loc,
            score_voices (read_score h s) = map (read_voice h) (score_voices s)).
  { intros s. unfold score_voices, read_score. cbn [instruments].
    destruct (instruments s) as [insts|]; simpl; [|reflexivity].
    rewrite concat_map, !map_map. f_equal. apply map_ext. intros i.
    unfold instrument_voices, read_instrument. cbn [staves].
    destruct (staves i) as [ss|]; simpl; [|reflexivity].
    rewrite concat_map, !map_map. f_equal. apply map_ext. intros st.
    unfold staff_voices, read_staff. cbn [voices].
    destruct (voices st) as [vs|]; reflexivity. }
  assert (Hempty : forall v : Voice loc,
            interval_events (read_voice h v) = Some [] <->
            interval_events v = Some []).
  { intros v. unfold read_voice. cbn [interval_events].
    destruct (interval_events v) as [[|e0 es]|]; simpl; split;
      intros H; try reflexivity; discriminate. }
  rewrite Hvoices. split.
  - destruct (duplicate score h) as [[s' h']|e'] eqn:Hrun; [discriminate|].
    intros [= ->]. apply duplicate_raise_inv in Hrun as [-> (v & Hin & He)].
    split; [reflexivity|]. exists (read_voice h v). split.
    + apply list_elem_of_In, in_map, list_elem_of_In, Hin.
    + apply Hempty, He.
  - intros [-> (v' & Hin & He)].
    apply list_elem_of_In, in_map_iff in Hin as (v & <- & Hin).
    apply list_elem_of_In in Hin. apply Hempty in He.
    rewrite (duplicate_raise score v h Hin He). reflexivity.
Qed.

Lemma main_returns document :
  (forall v, v ∈ score_voices document -> interval_events v <> Some []) ->
  exists written, main document = Ok written.
Proof.
  intros Hne. destruct (main document) as [w|e] eqn:Hrun.
  - exists w. reflexivity.
  - apply main_raise in Hrun as [_ (v & Hin & He)]. destruct (Hne v Hin He).
Qed.

Lemma children_fix {X} (R : X -> X -> Prop) o o' :
  (forall x y, x ∈ default [] o -> R x y -> y = x) ->
  children R o o' -> o' = o.
Proof.
  intros Hfix Hc. revert Hfix.
  destruct Hc as [xs ys Hxy|]; intros Hfix; [|reflexivity].
  simpl in Hfix. f_equal.
  induction Hxy as [|x y xs ys Hx _ IH]; [reflexivity|].
  rewrite (Hfix x y ltac:(left) Hx), IH; [reflexivity|].
  intros x' y' Hin. apply Hfix. right. exact Hin.
Qed.

Lemma written_score_fix d w :
  written_score d w ->
  (forall v, v ∈ score_voices d -> interval_events v = None) -> w = d.
Proof.
  intros (Hid & Hev & Hc) Hnone.
  assert (Hi : instruments w = instruments d).
  { eapply children_fix; [|exact Hc].
    intros i i' Hi (Hiid & Hn & Ht & Hci).
    assert (Hs : staves i' = staves i).
    { eapply children_fix; [|exact Hci].
      intros st st' Hst (Hsid & Hsev & Hcs).
      assert (Hvs : voices st' = voices st).
      { eapply children_fix; [|exact Hcs].
        intros v v' Hv [Hvid Hvev].
        assert (Hin : v ∈ score_voices d).
        { apply elem_of_concat_map. exists i. split; [exact Hi|].
          apply elem_of_concat_map. exists st. split; [exact Hst|exact Hv]. }
        pose proof (Hnone v Hin) as Hvn. rewrite Hvn in Hvev.
        clear - Hvid Hvev Hvn. destruct v, v'; simpl in *. congruence. }
      clear - Hsid Hsev Hvs. destruct st, st'; simpl in *. congruence. }
    clear - Hiid Hn Ht Hs. destruct i, i'; simpl in *. congruence. }
  clear - Hid Hev Hi. destruct d, w; simpl in *. congruence.
Qed.

(** ** Further properties of the duplication script *)





(** X3.  The script writes back the very document it read exactly when no
    voice it reaches has the key [interval_events]. *)
Theorem script_is_noop_exactly_without_notes_key :
  forall document : Score Z,
    main document = Ok document <->
    (forall v, v ∈ score_voices document -> interval_events v = None).
Proof.
  intros document. split.
  - intros Hrun v Hin.
    pose proof (written_score_voices _ _ (main_written _ _ Hrun)) as Hall.
    apply Forall2_diag in Hall. rewrite list.Forall_forall in Hall.
    destruct (Hall v Hin) as [_ Hev].
    destruct (interval_events v) as [events|]; [|reflexivity].
    destruct Hev as (m & Hm & [= H]).
    apply (f_equal length) in H. rewrite length_app, length_map in H.
    apply is_maximum_nonempty in Hm.
    destruct events; [destruct Hm; reflexivity|simpl in H; lia].
  - intros Hnone.
    destruct (main_returns document) as [w Hrun].
    { intros v Hin. rewrite (Hnone v Hin). discriminate. }
    rewrite Hrun. f_equal.
    apply written_score_fix; [apply main_written, Hrun|exact Hnone].
Qed.

Lemma script_is_noop_exactly_without_notes_key_witness :
  main keyless_document = Ok keyless_document.
Proof.
  apply (proj2 (script_is_noop_exactly_without_notes_key keyless_document)).
  intros v Hin. change (v ∈ [mkVoice "v" None]) in Hin.
  apply list_elem_of_singleton in Hin. subst v. reflexivity.
Defined.

Lemma written_voices_length (vs vs' : list (Voice Z)) :
  Forall2 written_voice vs vs' ->
  length (concat (map voice_events vs')) =
  (2 * length (concat (map voice_events vs)))%nat.
Proof.
  induction 1 as [|v v' vs vs' Hv _ IH]; simpl; [reflexivity|].
  destruct (written_voice_events v v' Hv) as (off & -> & _).
  rewrite !length_app, length_map, IH. lia.
Qed.

(** X4.  The document written has twice the notes of the document read,
    voice by voice and in all. *)
Theorem script_doubles_the_notes :
  forall document written : Score Z,
    main document = Ok written ->
    length (score_events written) = (2 * length (score_events document))%nat /\
    Forall2
      (fun v v' =>
         length (voice_events v') = (2 * length (voice_events v))%nat)
      (score_voices document) (score_voices written).
Proof.
  intros document written Hrun.
  pose proof (written_score_voices _ _ (main_written _ _ Hrun)) as Hall.
  split; [apply written_voices_length, Hall|].
  eapply Forall2_impl; [|exact Hall]. intros v v' Hv.
  destruct (written_voice_events v v' Hv) as (off & -> & _).
  rewrite length_app, length_map. lia.
Qed.

Lemma script_doubles_the_notes_witness :
  exists written,
    main scenario_B_document = Ok written /\
    length (score_events written) = 6%nat.
Proof.
  eexists. split; [vm_compute; reflexivity|].
  apply (proj1 (script_doubles_the_notes scenario_B_document _
                  ltac:(vm_compute; reflexivity))).
Defined.

(** X5.  The count the script prints after it has written the file is twice
    the number of notes the first voice of the first staff of the first
    instrument had in the document read; where that path has a key missing
    or an empty list, the script has written the file and the count raises
    the [KeyError] or [IndexError] it would raise on the document read. *)
Theorem printed_count_is_doubled :
  forall document written : Score Z,
    main document = Ok written ->
    reported_count written = doubled (reported_count document).
Proof.
  intros document written Hrun.
  destruct (main_written _ _ Hrun) as (_ & _ & Hc).
  unfold reported_count.
  destruct Hc as [insts insts' Hi|]; [|reflexivity].
  destruct Hi as [|i i' insts insts' (_ & _ & _ & Hcs) _]; [reflexivity|].
  cbn [get_key get_first result_bind].
  destruct Hcs as [ss ss' Hs|]; [|reflexivity].
  destruct Hs as [|st st' ss ss' (_ & _ & Hcv) _]; [reflexivity|].
  cbn [get_key get_first result_bind].
  destruct Hcv as [vs vs' Hv|]; [|reflexivity].
  destruct Hv as [|v v' vs vs' [_ Hev] _]; [reflexivity|].
  cbn [get_key get_first result_bind].
  destruct (interval_events v) as [events|].
  - destruct Hev as (m & _ & ->). cbn [get_key result_bind doubled].
    f_equal. rewrite length_app, length_map. lia.
  - rewrite Hev. reflexivity.
Qed.

Lemma printed_count_is_doubled_witness :
  exists written,
    main scenario_B_document = Ok written /\
    reported_count written = Ok 6%nat.
Proof.
  eexists. split; [vm_compute; reflexivity|].
  apply (printed_count_is_doubled scenario_B_document _
           ltac:(vm_compute; reflexivity)).
Defined.

Lemma written_voice_ticks v v' :
  written_voice v v' ->
  exists offset,
    voice_ticks v' = voice_ticks v ++ map (fun t => t + offset) (voice_ticks v) /\
    (voice_ticks v <> [] ->
     exists m, is_maximum m (voice_ticks v) /\ offset = m + 7680).
Proof.
  intros Hv. destruct (written_voice_events v v' Hv) as (off & He & Hm & _).
  exists off. unfold voice_ticks. rewrite He, map_app, !map_map.
  split; [reflexivity|].
  intros Hne. apply Hm. intros Hnil. apply Hne. unfold voice_ticks.
  rewrite Hnil. reflexivity.
Qed.

Lemma shifted_ticks_lookup (ticks : list Z) offset (j : nat) b :
  (length ticks <= j)%nat ->
  (ticks ++ map (fun t => t + offset) ticks) !! j = Some b ->
  exists t, ticks !! (j - length ticks)%nat = Some t /\ b = t + offset.
Proof.
  intros Hj Hb. rewrite lookup_app_r in Hb by exact Hj.
  change (map ?f ?l) with (f <$> l) in Hb. rewrite list_lookup_fmap in Hb.
  destruct (ticks !! (j - length ticks)%nat) as [t|]; [|discriminate].
  injection Hb as <-. exists t. split; reflexivity.
Qed.

Lemma is_maximum_bound m xs (i : nat) x :
  is_maximum m xs -> xs !! i = Some x -> x <= m.
Proof.
  intros [_ Hall] Hi. rewrite list.Forall_forall in Hall.
  apply Hall. apply list_elem_of_lookup. exists i. exact Hi.
Qed.

Lemma is_maximum_nonneg m xs :
  is_maximum m xs -> Forall (fun t => 0 <= t) xs -> 0 <= m.
Proof.
  intros [Hin _] Hall. rewrite list.Forall_forall in Hall. apply Hall, Hin.
Qed.

(** X6.  In a voice whose start ticks are not negative, every copy starts
    at least 7680 ticks after every note the voice had; so a voice whose
    notes were in ascending order of start tick still is after the pass. *)
Theorem copies_start_after_the_originals :
  forall document written : Score Z,
    main document = Ok written ->
    Forall2
      (fun v v' =>
         Forall (fun t => 0 <= t) (voice_ticks v) ->
         (forall (i j : nat) a b,
            (i < length (voice_ticks v) <= j)%nat ->
            voice_ticks v' !! i = Some a -> voice_ticks v' !! j = Some b ->
            a + 7680 <= b) /\
         (ascending (voice_ticks v) -> ascending (voice_ticks v')))
      (score_voices document) (score_voices written).
Proof.
  intros document written Hrun.
  pose proof (written_score_voices _ _ (main_written _ _ Hrun)) as Hall.
  eapply Forall2_impl; [|exact Hall]. clear. intros v v' Hv Hpos.
  destruct (written_voice_ticks v v' Hv) as (off & -> & Hoff).
  set (ticks := voice_ticks v) in *.
  assert (Hgap : forall (i j : nat) a b,
            (i < length ticks <= j)%nat ->
            (ticks ++ map (fun t => t + off) ticks) !! i = Some a ->
            (ticks ++ map (fun t => t + off) ticks) !! j = Some b ->
            a + 7680 <= b).
  { intros i j a b [Hi Hj] Ha Hb.
    rewrite lookup_app_l in Ha by exact Hi.
    destruct (shifted_ticks_lookup ticks off j b Hj Hb) as (t & Ht & ->).
    destruct Hoff as (m & Hm & ->).
    { intros Hnil. rewrite Hnil in Ha. discriminate. }
    pose proof (is_maximum_bound m ticks i a Hm Ha).
    rewrite list.Forall_forall in Hpos.
    pose proof (Hpos t ltac:(apply list_elem_of_lookup; eexists; exact Ht)).
    lia. }
  split; [exact Hgap|].
  intros Hasc i j a b Hij Ha Hb. unfold ascending in Hasc.
  destruct (decide (j < length ticks)%nat) as [Hj|Hj].
  - rewrite lookup_app_l in Ha by lia. rewrite lookup_app_l in Hb by lia.
    exact (Hasc i j a b Hij Ha Hb).
  - destruct (decide (i < length ticks)%nat) as [Hi|Hi].
    + pose proof (Hgap i j a b ltac:(lia) Ha Hb). lia.
    + destruct (shifted_ticks_lookup ticks off i a ltac:(lia) Ha)
        as (t1 & Ht1 & ->).
      destruct (shifted_ticks_lookup ticks off j b ltac:(lia) Hb)
        as (t2 & Ht2 & ->).
      pose proof (Hasc (i - length ticks)%nat (j - length ticks)%nat t1 t2
                    ltac:(lia) Ht1 Ht2). lia.
Qed.

Lemma copies_start_after_the_originals_witness :
  exists written v',
    main scenario_B_document = Ok written /\
    score_voices written !! 0%nat = Some v' /\
    ascending (voice_ticks v').
Proof.
  eexists _, _.
  split; [vm_compute; reflexivity|]. split; [vm_compute; reflexivity|].
  pose proof (copies_start_after_the_originals scenario_B_document _
                ltac:(vm_compute; reflexivity)) as H.
  change (score_voices scenario_B_document) with [scenario_B_voice] in H.
  match type of H with
  | Forall2 _ _ (score_voices ?w) =>
      let vs := eval vm_compute in (score_voices w) in
      change (score_voices w) with vs in H
  end.
  apply Forall2_cons_1 in H as [Hv _].
  refine (proj2 (Hv _) _).
  - repeat constructor; cbn; lia.
  - intros i j a b Hij Ha Hb.
    destruct i as [|[|[|i]]]; destruct j as [|[|[|j]]];
      try discriminate; try lia;
      injection Ha as <-; injection Hb as <-; vm_compute; discriminate.
Defined.

(** X7.  If every note of the document read starts at a tick that is not
    negative and has a positive duration, so does every note of the document
    written. *)
Theorem script_keeps_ticks_and_durations_valid :
  forall document written : Score Z,
    main document = Ok written ->
    Forall (fun e => 0 <= start_tick e /\ 0 < duration_ticks e)
      (score_events document) ->
    Forall (fun e => 0 <= start_tick e /\ 0 < duration_ticks e)
      (score_events written).
Proof.
  intros document written Hrun.
  pose proof (written_score_voices _ _ (main_written _ _ Hrun)) as Hall.
  unfold score_events.
  induction Hall as [|v v' vs vs' Hv _ IH]; simpl; [trivial|].
  intros Hok. apply Forall_app in Hok as [Hvok Hrest].
  apply Forall_app. split; [|apply IH, Hrest].
  destruct (written_voice_events v v' Hv) as (off & -> & Hoff & _).
  apply Forall_app. split; [exact Hvok|].
  destruct (voice_events v) as [|e0 es] eqn:He; [constructor|].
  destruct Hoff as (m & Hm & ->); [discriminate|].
  assert (0 <= m).
  { apply (is_maximum_nonneg m (voice_ticks v) Hm).
    unfold voice_ticks. rewrite He.
    apply Forall_map. eapply List.Forall_impl; [|exact Hvok].
    intros e [H _]. exact H. }
  apply Forall_map. eapply List.Forall_impl; [|exact Hvok].
  intros e [Ht Hd]. unfold shift. cbn [start_tick duration_ticks].
  split; [lia|exact Hd].
Qed.

Lemma script_keeps_ticks_and_durations_valid_witness :
  exists written,
    main scenario_B_document = Ok written /\
    Forall (fun e => 0 <= start_tick e /\ 0 < duration_ticks e)
      (score_events written).
Proof.
  eexists. split; [vm_compute; reflexivity|].
  apply (script_keeps_ticks_and_durations_valid scenario_B_document);
    [vm_compute; reflexivity|].
  repeat constructor; cbn; lia.
Defined.

Lemma NoDup_concat_map_elem {X Y} (g : X -> list Y) (l : list X) x :
  NoDup (concat (map g l)) -> x ∈ l -> NoDup (g x).
Proof.
  induction l as [|x0 l IH]; simpl; intros Hnd Hin; [inversion Hin|].
  apply list.NoDup_app in Hnd as (H0 & _ & Hl).
  apply elem_of_cons in Hin as [->|Hin]; [exact H0|apply IH; assumption].
Qed.

(** X8.  Identifiers do not stay unique: as soon as the document read has
    one note, two notes of the document written have the same identifier. *)
Theorem script_repeats_identifiers :
  forall document written : Score Z,
    main document = Ok written ->
    score_events document <> [] ->
    ~ NoDup (map note_id (score_events written)).
Proof.
  intros document written Hrun Hne Hnd.
  pose proof (written_score_voices _ _ (main_written _ _ Hrun)) as Hall.
  assert (Hv : exists v, v ∈ score_voices document /\ voice_events v <> []).
  { unfold score_events in Hne. clear - Hne.
    induction (score_voices document) as [|v vs IH]; [contradiction|].
    simpl in Hne. destruct (voice_events v) as [|e es] eqn:He.
    - destruct (IH Hne) as (v' & Hin & Hv'). exists v'.
      split; [right; exact Hin|exact Hv'].
    - exists v. split; [left|]. rewrite He. discriminate. }
  destruct Hv as (v & Hin & Hev).
  apply list_elem_of_lookup in Hin as [i Hi].
  destruct (Forall2_lookup_l _ _ _ _ _ Hall Hi) as (v' & Hi' & Hw).
  destruct (written_voice_events v v' Hw) as (off & He' & _).
  unfold score_events in Hnd. rewrite concat_map, map_map in Hnd.
  apply (NoDup_concat_map_elem (fun v => map note_id (voice_events v)) _ v')
    in Hnd; [|apply list_elem_of_lookup; exists i; exact Hi'].
  rewrite He', map_app, map_map in Hnd.
  apply list.NoDup_app in Hnd as (_ & Hdis & _).
  destruct (voice_events v) as [|e es]; [contradiction|].
  apply (Hdis (note_id e)); simpl; left.
Qed.

Lemma script_repeats_identifiers_witness :
  exists written,
    main scenario_B_document = Ok written /\
    ~ NoDup (map note_id (score_events written)).
Proof.
  eexists. split; [vm_compute; reflexivity|].
  apply (script_repeats_identifiers scenario_B_document);
    [vm_compute; reflexivity|discriminate].
Defined.



(** X10.  Where the greatest start tick [m] of a voice is at least -7680,
    the greatest start tick of the voice after the pass is [2 * m + 7680]:
    the copy of the last note is the last note. *)
Theorem last_start_tick_after_the_pass :
  forall document written : Score Z,
    main document = Ok written ->
    Forall2
      (fun v v' =>
         forall m, is_maximum m (voice_ticks v) -> -7680 <= m ->
                   is_maximum (2 * m + 7680) (voice_ticks v'))
      (score_voices document) (score_voices written).
Proof.
  intros document written Hrun.
  pose proof (written_score_voices _ _ (main_written _ _ Hrun)) as Hall.
  eapply Forall2_impl; [|exact Hall]. clear. intros v v' Hv m Hm Hlow.
  destruct (written_voice_ticks v v' Hv) as (off & -> & Hoff).
  destruct (Hoff (is_maximum_nonempty _ _ Hm)) as (m' & Hm' & ->).
  assert (m' = m) as ->.
  { destruct Hm as [Hin Hall], Hm' as [Hin' Hall'].
    rewrite list.Forall_forall in Hall, Hall'.
    pose proof (Hall _ Hin'). pose proof (Hall' _ Hin). lia. }
  destruct Hm as [Hin Hall]. split.
  - apply elem_of_app. right.
    replace (2 * m + 7680) with (m + (m + 7680)) by lia.
    apply list_elem_of_In, (in_map (fun t => t + (m + 7680))), list_elem_of_In.
    exact Hin.
  - apply Forall_app. split.
    + eapply List.Forall_impl; [|exact Hall]. intros t Ht. cbv beta in *. lia.
    + apply Forall_map. eapply List.Forall_impl; [|exact Hall].
      intros t Ht. cbv beta in *. lia.
Qed.

Lemma last_start_tick_after_the_pass_witness :
  exists written v',
    main scenario_B_document = Ok written /\
    score_voices written !! 0%nat = Some v' /\
    is_maximum (2 * 960 + 7680) (voice_ticks v').
Proof.
  eexists _, _.
  split; [vm_compute; reflexivity|]. split; [vm_compute; reflexivity|].
  pose proof (last_start_tick_after_the_pass scenario_B_document _
                ltac:(vm_compute; reflexivity)) as H.
  change (score_voices scenario_B_document) with [scenario_B_voice] in H.
  match type of H with
  | Forall2 _ _ (score_voices ?w) =>
      let vs := eval vm_compute in (score_voices w) in
      change (score_voices w) with vs in H
  end.
  apply Forall2_cons_1 in H as [Hv _].
  apply Hv; [|lia].
  split; [right; right; left|repeat constructor; cbn; lia].
Defined.

Lemma copies_at_objects (events : list (IntervalEvent loc)) : forall n : nat,
  concat (map note_objects (copies_at n events)) = seq n (2 * length events).
Proof.
  induction events as [|e es IH]; intros n; [reflexivity|].
  cbn [copies_at map concat note_objects start_tick pitch app length].
  rewrite IH. replace (2 * S (length es))%nat with (S (S (2 * length es))) by lia.
  reflexivity.
Qed.

(** X11.  The copies are deep: a pass over a voice makes two new objects
    for each note, and the wrapper objects of the copies are exactly these
    new objects, each used once.  So no copy shares an object with another
    copy or with anything the store held before. *)
Theorem copies_share_no_object :
  forall (voice : Voice loc) events h,
    interval_events voice = Some events -> events <> [] ->
    Forall (valid_event h) events ->
    exists voice' h' copies,
      duplicate_voice voice h = Ok (voice', h') /\
      interval_events voice' = Some (events ++ copies) /\
      length h' = (length h + 2 * length events)%nat /\
      concat (map note_objects copies) = seq (length h) (2 * length events) /\
      NoDup (concat (map note_objects copies)) /\
      Forall (fun l => (length h <= l < length h')%nat)
        (concat (map note_objects copies)).
Proof.
  intros voice events h He Hne Hv.
  destruct (duplicate_voice_notes voice events h He Hne Hv)
    as (copies & m & Hrun & -> & _).
  eexists _, _, _. split; [exact Hrun|]. split; [reflexivity|].
  rewrite length_app, copied_cells_length, copies_at_objects.
  split; [reflexivity|]. split; [reflexivity|].
  split; [apply NoDup_seq|].
  apply list.Forall_forall. intros l Hl.
  apply list_elem_of_lookup in Hl as [i Hi].
  apply lookup_seq in Hi as [-> Hi]. lia.
Qed.

Lemma copies_share_no_object_witness :
  exists voice' h' copies,
    duplicate_voice scenario_B_loaded scenario_B_heap = Ok (voice', h') /\
    interval_events voice' = Some (voice_events scenario_B_loaded ++ copies) /\
    length h' = 12%nat /\
    concat (map note_objects copies) = [6; 7; 8; 9; 10; 11]%nat.
Proof.
  destruct (copies_share_no_object scenario_B_loaded
              (voice_events scenario_B_loaded) scenario_B_heap
              eq_refl ltac:(discriminate) ltac:(repeat constructor))
    as (voice' & h' & copies & Hrun & He & Hlen & Hobj & _).
  exists voice', h', copies.
  split; [exact Hrun|]. split; [exact He|]. split; [exact Hlen|exact Hobj].
Defined.

(** X18.  The offset is counted from the last start tick, not from a bar
    line.  For a measure width [W] that divides 7680, the copy of a note at
    tick [t] falls at place [(t + m) mod W] of its measure, where [m] is the
    last start tick of the voice: the copies keep their places in the
    measure only when the last note starts on a bar line. *)
Theorem copies_are_displaced_by_the_last_tick :
  forall document written : Score Z,
    main document = Ok written ->
    Forall2
      (fun v v' =>
         forall W m (i : nat) t,
           0 < W -> (W | 7680) ->
           is_maximum m (voice_ticks v) ->
           voice_ticks v !! i = Some t ->
           exists t',
             voice_ticks v' !! (length (voice_ticks v) + i)%nat = Some t' /\
             t' = t + m + 7680 /\
             t' `mod` W = (t + m) `mod` W)
      (score_voices document) (score_voices written).
Proof.
  intros document written Hrun.
  pose proof (written_score_voices _ _ (main_written _ _ Hrun)) as Hall.
  eapply Forall2_impl; [|exact Hall]. clear.
  intros v v' Hv W m i t HW [q Hq] Hm Ht.
  destruct (written_voice_ticks v v' Hv) as (off & -> & Hoff).
  destruct (Hoff (is_maximum_nonempty _ _ Hm)) as (m' & Hm' & ->).
  assert (m' = m) as ->.
  { destruct Hm as [Hin Hall], Hm' as [Hin' Hall'].
    rewrite list.Forall_forall in Hall, Hall'.
    pose proof (Hall _ Hin'). pose proof (Hall' _ Hin). lia. }
  exists (t + m + 7680). split; [|split; [reflexivity|]].
  - rewrite lookup_app_r by lia.
    replace (length (voice_ticks v) + i - length (voice_ticks v))%nat
      with i by lia.
    change (map ?f ?l) with (f <$> l). rewrite list_lookup_fmap, Ht.
    simpl. f_equal. lia.
  - rewrite Hq. apply Z.mod_add. lia.
Qed.

Lemma copies_are_displaced_by_the_last_tick_witness :
  exists written v' t',
    main scenario_B_document = Ok written /\
    score_voices written !! 0%nat = Some v' /\
    voice_ticks v' !! 3%nat = Some t' /\
    t' `mod` 3840 = 960.
Proof.
  pose proof (copies_are_displaced_by_the_last_tick scenario_B_document _
                ltac:(vm_compute; reflexivity)) as H.
  change (score_voices scenario_B_document) with [scenario_B_voice] in H.
  match type of H with
  | Forall2 _ _ (score_voices ?w) =>
      let vs := eval vm_compute in (score_voices w) in
      change (score_voices w) with vs in H
  end.
  apply Forall2_cons_1 in H as [Hv _].
  destruct (Hv 3840 960 0%nat 0 ltac:(lia) ltac:(exists 2; reflexivity)
              ltac:(split; [right; right; left|repeat constructor; cbn; lia])
              eq_refl) as (t' & Ht' & _ & Hmod).
  eexists _, _, t'. split; [vm_compute; reflexivity|].
  split; [vm_compute; reflexivity|]. split; [exact Ht'|exact Hmod].
Defined.

(** ** Further properties of the synthesis *)

Lemma nth_note_fields TPM DUR N prefix pitches start (j : nat) :
  let e := nth_note TPM DUR N prefix pitches start j in
  start_tick e =
    Z.of_nat (j / Z.to_nat N) * TPM + Z.of_nat (j mod Z.to_nat N) * DUR /\
  duration_ticks e = DUR /\
  pitch e = pitches !!! ((j mod Z.to_nat N) mod length pitches)%nat /\
  note_id e = prefix +:+ format_04d (start + Z.of_nat j) +:+ id_suffix.
Proof.
  cbv zeta. unfold nth_note, make_note.
  cbn [start_tick duration_ticks pitch note_id].
  split; [reflexivity|]. split; [reflexivity|]. split; [|reflexivity].
  rewrite <- Nat2Z.inj_mod, Nat2Z.id. reflexivity.
Qed.

(** X12.  The two nested loops append [M * N] notes.  The note in [j]-th
    place is in measure [j / N] at place [j mod N]: it starts at
    [(j / N) * ticks_per_measure + (j mod N) * note_duration], lasts
    [note_duration], has the pitch at index [(j mod N) mod len(pitches)] and
    the number [start + j] in its identifier.  The counter ends at
    [start + M * N]. *)
Theorem synthesized_note_closed_form :
  forall M TPM DUR N prefix pitches start,
    snd (note_loop M TPM DUR N prefix pitches start) =
      start + Z.of_nat (Z.to_nat M * Z.to_nat N) /\
    forall j : nat,
      ((j < Z.to_nat M * Z.to_nat N)%nat ->
       exists e, fst (note_loop M TPM DUR N prefix pitches start) !! j = Some e)
      /\
      (forall e,
         fst (note_loop M TPM DUR N prefix pitches start) !! j = Some e ->
         (j < Z.to_nat M * Z.to_nat N)%nat /\
         start_tick e =
           Z.of_nat (j / Z.to_nat N) * TPM + Z.of_nat (j mod Z.to_nat N) * DUR /\
         duration_ticks e = DUR /\
         pitch e = pitches !!! ((j mod Z.to_nat N) mod length pitches)%nat /\
         note_id e = prefix +:+ format_04d (start + Z.of_nat j) +:+ id_suffix).
Proof.
  intros M TPM DUR N prefix pitches start. split.
  { unfold note_loop, py_range. rewrite note_loop_run. reflexivity. }
  intros j. split.
  - intros Hj. apply lookup_lt_is_Some. rewrite note_loop_length. exact Hj.
  - intros e He. apply note_loop_lookup in He as [-> Hj].
    split; [exact Hj|]. apply nth_note_fields.
Qed.

Lemma synthesized_note_closed_form_witness :
  exists e,
    treble_notes !! 9%nat = Some e /\
    start_tick e = 1 * 3840 + 1 * 480 /\ pitch e = 62.
Proof.
  eexists. split; [vm_compute; reflexivity|].
  destruct (proj2 (proj2 (synthesized_note_closed_form 30 3840 480 8 "tn"
                      treble_pitches 10) 9%nat) _
              ltac:(vm_compute; reflexivity)) as (_ & Ht & _ & Hp & _).
  split; [exact Ht|exact Hp].
Defined.

(** X13.  The pattern of a measure comes again in the next one: the note
    [N] places further has the same pitch and duration and starts exactly one
    [ticks_per_measure] later. *)
Theorem measures_repeat_the_pattern :
  forall M TPM DUR N prefix pitches start (j : nat) a b,
    fst (note_loop M TPM DUR N prefix pitches start) !! j = Some a ->
    fst (note_loop M TPM DUR N prefix pitches start) !! (j + Z.to_nat N)%nat
      = Some b ->
    pitch b = pitch a /\
    duration_ticks b = duration_ticks a /\
    start_tick b = start_tick a + TPM.
Proof.
  intros M TPM DUR N prefix pitches start j a b Ha Hb.
  apply note_loop_lookup in Ha as [-> Hj].
  apply note_loop_lookup in Hb as [-> _].
  assert (Hn : (Z.to_nat N <> 0)%nat) by lia.
  destruct (nth_note_fields TPM DUR N prefix pitches start j)
    as (Hta & Hda & Hpa & _).
  destruct (nth_note_fields TPM DUR N prefix pitches start (j + Z.to_nat N))
    as (Htb & Hdb & Hpb & _).
  cbv zeta in *. rewrite Hta, Hda, Hpa, Htb, Hdb, Hpb.
  replace ((j + Z.to_nat N) / Z.to_nat N)%nat with (S (j / Z.to_nat N)).
  2:{ replace (j + Z.to_nat N)%nat with (j + 1 * Z.to_nat N)%nat by lia.
      rewrite Nat.div_add by exact Hn. lia. }
  replace ((j + Z.to_nat N) mod Z.to_nat N)%nat with (j mod Z.to_nat N)%nat.
  2:{ replace (j + Z.to_nat N)%nat with (j + 1 * Z.to_nat N)%nat by lia.
      rewrite Nat.Div0.mod_add. reflexivity. }
  split; [reflexivity|]. split; [reflexivity|]. lia.
Qed.

Lemma measures_repeat_the_pattern_witness :
  exists a b,
    treble_notes !! 3%nat = Some a /\ treble_notes !! 11%nat = Some b /\
    pitch b = pitch a /\ duration_ticks b = duration_ticks a /\
    start_tick b = start_tick a + 3840.
Proof.
  eexists _, _.
  split; [vm_compute; reflexivity|]. split; [vm_compute; reflexivity|].
  apply (measures_repeat_the_pattern 30 3840 480 8 "tn" treble_pitches 10
           3%nat); vm_compute; reflexivity.
Defined.

(** X14.  When a measure is exactly filled,
    [ticks_per_measure = notes_per_measure * note_duration], the note in
    [j]-th place starts at [j * note_duration] and the next note starts
    where it ends: the notes of a staff neither overlap nor leave a gap. *)
Theorem filled_measures_are_contiguous :
  forall M TPM DUR N prefix pitches start,
    TPM = N * DUR ->
    forall (j : nat) e,
      fst (note_loop M TPM DUR N prefix pitches start) !! j = Some e ->
      start_tick e = Z.of_nat j * DUR /\
      forall b,
        fst (note_loop M TPM DUR N prefix pitches start) !! S j = Some b ->
        start_tick b = start_tick e + duration_ticks e.
Proof.
  intros M TPM DUR N prefix pitches start Hfill.
  assert (Htick : forall (j : nat) e,
            fst (note_loop M TPM DUR N prefix pitches start) !! j = Some e ->
            start_tick e = Z.of_nat j * DUR /\ duration_ticks e = DUR).
  { intros j e He. apply note_loop_lookup in He as [-> Hj].
    destruct (nth_note_fields TPM DUR N prefix pitches start j)
      as (Ht & Hd & _).
    cbv zeta in *. rewrite Ht, Hd. split; [|reflexivity].
    assert (HN : Z.of_nat (Z.to_nat N) = N) by lia.
    pose proof (Nat.div_mod_eq j (Z.to_nat N)) as Hdm.
    apply (f_equal Z.of_nat) in Hdm.
    rewrite Nat2Z.inj_add, Nat2Z.inj_mul, HN in Hdm.
    rewrite Hfill, Hdm at 1. ring. }
  intros j e He. destruct (Htick j e He) as [Ht Hd]. split; [exact Ht|].
  intros b Hb. destruct (Htick (S j) b Hb) as [Htb _].
  rewrite Htb, Ht, Hd. lia.
Qed.

Lemma filled_measures_are_contiguous_witness :
  exists e,
    bass_notes !! 17%nat = Some e /\ start_tick e = 17 * 480.
Proof.
  eexists. split; [vm_compute; reflexivity|].
  apply (filled_measures_are_contiguous 30 3840 480 8 "bn" bass_pitches 10000
           ltac:(reflexivity) 17%nat _ ltac:(vm_compute; reflexivity)).
Defined.

(** X15.  The index into the pitch list is always in range: with a pitch
    list that is not empty, the pitch of every note is one of the list. *)
Theorem synthesized_pitch_is_from_the_list :
  forall M TPM DUR N prefix pitches start,
    pitches <> [] ->
    Forall (fun e => pitch e ∈ pitches)
      (fst (note_loop M TPM DUR N prefix pitches start)).
Proof.
  intros M TPM DUR N prefix pitches start Hne.
  apply Forall_lookup. intros j e He.
  apply note_loop_lookup in He as [-> _].
  destruct (nth_note_fields TPM DUR N prefix pitches start j)
    as (_ & _ & Hp & _).
  cbv zeta in Hp. rewrite Hp.
  apply list_elem_of_lookup_total_2.
  apply Nat.mod_upper_bound. destruct pitches; [congruence|discriminate].
Qed.

Lemma synthesized_pitch_is_from_the_list_witness :
  Forall (fun e => pitch e ∈ treble_pitches) treble_notes.
Proof.
  apply (synthesized_pitch_is_from_the_list 30 3840 480 8 "tn" treble_pitches
           10).
  discriminate.
Defined.

(** X16.  With a measure width that is not negative and a positive note
    duration, every note the loops build starts at a tick that is not
    negative and has a positive duration. *)
Theorem synthesized_notes_are_well_formed :
  forall M TPM DUR N prefix pitches start,
    0 <= TPM -> 0 < DUR ->
    Forall (fun e => 0 <= start_tick e /\ 0 < duration_ticks e)
      (fst (note_loop M TPM DUR N prefix pitches start)).
Proof.
  intros M TPM DUR N prefix pitches start HT HD.
  apply Forall_lookup. intros j e He.
  apply note_loop_lookup in He as [-> _].
  destruct (nth_note_fields TPM DUR N prefix pitches start j)
    as (Ht & Hd & _).
  cbv zeta in *. rewrite Ht, Hd. split; [|exact HD]. nia.
Qed.

Lemma synthesized_notes_are_well_formed_witness :
  Forall (fun e => 0 <= start_tick e /\ 0 < duration_ticks e) bass_notes.
Proof.
  apply (synthesized_notes_are_well_formed 30 3840 480 8 "bn" bass_pitches
           10000); lia.
Defined.

(** ** The number in an identifier *)

Lemma zeros_length k : String.length (zeros k) = k.
Proof.
  induction k as [|k IH]; [reflexivity|].
  change (zeros (S k)) with ("0" +:+ zeros k).
  rewrite length_append, IH. reflexivity.
Qed.

Lemma zero_fill_length width digits :
  (width <= String.length (zero_fill width digits))%nat.
Proof. unfold zero_fill. rewrite length_append, zeros_length. lia. Qed.

Lemma read_minus (x : string) :
  NilEmpty.uint_of_string ("-" +:+ x) = None.
Proof.
  change ("-" +:+ x) with (String (Ascii.ascii_of_nat 45) x).
  cbn [NilEmpty.uint_of_string].
  destruct (NilEmpty.uint_of_string x) as [d|]; reflexivity.
Qed.

Lemma four_digits_below_10000 :
  forallb (fun n => Nat.eqb (String.length (format_04d n)) 4)
    (py_range 10000) = true.
Proof. vm_compute. reflexivity. Qed.

(** X17.  [format(n, "04d")] loses nothing: two counters with the same text
    are the same counter, and the text of a counter that is not negative
    reads back as the counter.  The text has at least four characters, and
    exactly four for counters from 0 to 9999. *)
Theorem format_04d_reads_back :
  (forall n, 0 <= n ->
     option_map N.of_uint (NilEmpty.uint_of_string (format_04d n))
       = Some (Z.to_N n)) /\
  (forall a b, format_04d a = format_04d b -> a = b) /\
  (forall n, (4 <= String.length (format_04d n))%nat) /\
  (forall n, 0 <= n < 10000 -> String.length (format_04d n) = 4%nat).
Proof.
  assert (Hread : forall n, 0 <= n ->
            option_map N.of_uint (NilEmpty.uint_of_string (format_04d n))
              = Some (Z.to_N n)).
  { intros n Hn. unfold format_04d, decimal.
    destruct (Z.ltb_spec n 0) as [?|_]; [lia|].
    rewrite zero_fill_read, Unsigned.of_to. reflexivity. }
  split; [exact Hread|]. split; [|split].
  - intros a b H.
    destruct (Z.ltb_spec a 0) as [Ha|Ha], (Z.ltb_spec b 0) as [Hb|Hb].
    + unfold format_04d in H.
      destruct (Z.ltb_spec a 0) as [_|?]; [|lia].
      destruct (Z.ltb_spec b 0) as [_|?]; [|lia].
      apply String.app_inj in H.
      apply (f_equal (fun s => option_map N.of_uint
                                 (NilEmpty.uint_of_string s))) in H.
      unfold decimal in H. rewrite !zero_fill_read, !Unsigned.of_to in H.
      injection H as H. apply Z2N.inj in H; lia.
    + apply (f_equal NilEmpty.uint_of_string) in H.
      pose proof (Hread b Hb) as Hrb. rewrite <- H in Hrb.
      unfold format_04d in Hrb.
      destruct (Z.ltb_spec a 0) as [_|?]; [|lia].
      rewrite read_minus in Hrb. discriminate.
    + apply (f_equal NilEmpty.uint_of_string) in H.
      pose proof (Hread a Ha) as Hra. rewrite H in Hra.
      unfold format_04d in Hra.
      destruct (Z.ltb_spec b 0) as [_|?]; [|lia].
      rewrite read_minus in Hra. discriminate.
    + apply format_04d_inj; assumption.
  - intros n. unfold format_04d. destruct (n <? 0).
    + rewrite length_append.
      pose proof (zero_fill_length 3 (decimal (Z.to_N (- n)))).
      cbn [String.length]. lia.
    + apply zero_fill_length.
  - intros n Hn.
    pose proof four_digits_below_10000 as Hall.
    rewrite forallb_forall in Hall.
    apply Nat.eqb_eq, Hall. unfold py_range.
    apply in_map_iff. exists (Z.to_nat n). split; [lia|].
    apply in_seq. lia.
Qed.

Lemma format_04d_reads_back_witness :
  option_map N.of_uint (NilEmpty.uint_of_string (format_04d 10239))
    = Some 10239%N /\
  String.length (format_04d 249) = 4%nat.
Proof.
  split.
  - apply (proj1 format_04d_reads_back 10239). lia.
  - apply (proj2 (proj2 (proj2 format_04d_reads_back)) 249). lia.
Defined.
